(** * SemDeDup: semantic de-duplication by clustering and pruning

    A shallow embedding of [semdedup.py].  The script is a straight-line
    program over numpy arrays; it is embedded stage by stage:

    - [sort_by_centroid_distance]   lines 14-19
    - the length assertion          line 52
    - the partitioner               lines 69-85 (faiss)
    - the per-cluster pruning loop  lines 87-111
    - the final projection          lines 115-120

    Loading the corpus and computing the embeddings (lines 23-49) and the
    conversion of the embeddings into a normalised float32 array (lines
    55-59) are not embedded: the stages take the 2-D array [embeddings]
    as it reaches line 61.

    Floating point numbers are idealised as rationals ([Q]); a finite
    float is a rational, NaN and infinities are left out.  A vector is a
    [list Q], a 2-D array is a list of rows.  Python exceptions are the
    [Raise] branch of [result]. *)

From Stdlib Require Import String.
From Stdlib Require Import List ZArith QArith Qabs Bool Arith Lia.
From Stdlib Require Import Permutation Sorted.
Import Corelib.Init.Datatypes.
Import ListNotations.

Set Implicit Arguments.

(** ** Python exceptions *)

Inductive exn : Type :=
| AssertionError (msg : string)
| ValueError
| IndexError
| InsufficientData.

Inductive result (A : Type) : Type :=
| Ok (a : A)
| Raise (e : exn).

Arguments Ok {A} a.
Arguments Raise {A} e.

Definition bind {A B : Type} (r : result A) (k : A -> result B) : result B :=
  match r with
  | Ok a => k a
  | Raise e => Raise e
  end.

Notation "x <- c ;; k" := (bind c (fun x => k))
  (at level 61, c at next level, right associativity).

Definition vec : Type := list Q.
Definition matrix : Type := list vec.

(** ** The numpy operations the script uses *)

Module Np.

(** [np.argsort(col, axis=0)] on an (n,1) column: the positions of the
    column in ascending order of their value.  numpy's default sort
    leaves the order of equal keys unspecified; the model inserts
    stably. *)
Fixpoint insert_key (p : Q * nat) (l : list (Q * nat)) : list (Q * nat) :=
  match l with
  | [] => [p]
  | q :: l' =>
      if Qle_bool (fst p) (fst q) then p :: q :: l'
      else q :: insert_key p l'
  end.

Definition sort_keys (l : list (Q * nat)) : list (Q * nat) :=
  fold_right insert_key [] l.

Definition argsort (col : list Q) : list nat :=
  map snd (sort_keys (combine col (seq 0 (length col)))).

(** [a[idx]] with an integer index array: the rows at those positions,
    [IndexError] when a position is out of bounds. *)
Fixpoint take {A : Type} (a : list A) (idx : list nat) : result (list A) :=
  match idx with
  | [] => Ok []
  | i :: idx' =>
      match nth_error a i with
      | None => Raise IndexError
      | Some r => rs <- take a idx' ;; Ok (r :: rs)
      end
  end.

(** [a[mask]] with a 1-D boolean array: the rows where the mask holds,
    [IndexError] when the mask has another length than [a]. *)
Fixpoint select {A : Type} (mask : list bool) (a : list A) : list A :=
  match mask, a with
  | b :: mask', r :: a' => if b then r :: select mask' a' else select mask' a'
  | _, _ => []
  end.

Definition mask_index {A : Type} (a : list A) (mask : list bool)
  : result (list A) :=
  if length mask =? length a then Ok (select mask a) else Raise IndexError.

(** [np.flatnonzero(mask)]: the positions where the mask holds. *)
Fixpoint nonzero_from (i : nat) (mask : list bool) : list nat :=
  match mask with
  | [] => []
  | b :: mask' =>
      if b then i :: nonzero_from (S i) mask' else nonzero_from (S i) mask'
  end.

Definition flatnonzero (mask : list bool) : list nat := nonzero_from 0 mask.

(** [a[b]] with a boolean scalar: a new leading axis, of length one
    when [b] holds and of length zero otherwise. *)
Definition bool_index {A : Type} (a : A) (b : bool) : list A :=
  if b then [a] else [].

(** [np.triu(m, k=1)]: entries on and below the diagonal become zero. *)
Fixpoint triu_row (r c : nat) (row : vec) : vec :=
  match row with
  | [] => []
  | x :: row' => (if r <? c then x else 0) :: triu_row r (S c) row'
  end.

Fixpoint triu_from (r : nat) (m : matrix) : matrix :=
  match m with
  | [] => []
  | row :: m' => triu_row r 0 row :: triu_from (S r) m'
  end.

Definition triu1 (m : matrix) : matrix := triu_from 0 m.

(** [np.max(m, axis=0)]: the maximum of every column; a reduction over
    an axis of length zero raises [ValueError]. *)
Definition qmax (x y : Q) : Q := if Qle_bool x y then y else x.

Fixpoint max_rows (acc row : vec) : vec :=
  match acc, row with
  | x :: acc', y :: row' => qmax x y :: max_rows acc' row'
  | _, _ => []
  end.

Definition max_axis0 (m : matrix) : result vec :=
  match m with
  | [] => Raise ValueError
  | row :: m' => Ok (fold_left max_rows m' row)
  end.

(** [v[0]] *)
Definition item0 (v : vec) : result Q :=
  match v with
  | [] => Raise IndexError
  | x :: _ => Ok x
  end.

(** [np.array(blocks)] on a list of 2-D arrays: a 3-D array when all
    blocks have one shape, [ValueError] when they do not. *)
Definition shape (m : matrix) : list nat := map (@length Q) m.

Definition same_shape (m1 m2 : matrix) : bool :=
  if list_eq_dec Nat.eq_dec (shape m1) (shape m2) then true else false.

Definition array (blocks : list matrix) : result (list matrix) :=
  match blocks with
  | [] => Ok []
  | b :: bs => if forallb (same_shape b) bs then Ok blocks else Raise ValueError
  end.

(** [x in a] for an array [a]: [(a == x).any()], some scalar of the
    array equals [x]. *)
Definition contains (x : nat) (a : list matrix) : bool :=
  existsb (existsb (existsb (fun y => Qeq_bool y (inject_Z (Z.of_nat x))))) a.

(** The order of the keys of [sort_keys], and the rows that start with
    the zero written by [triu1]. *)
Definition key_le (p q : Q * nat) : Prop := fst p <= fst q.

Definition zero_headed (row : vec) : Prop := exists t, row = 0 :: t.

End Np.

(** ** Library kernels

    [cdist] is scipy's Euclidean distance between two rows and [cosine]
    is sklearn's cosine similarity between two rows.  Neither is part of
    the sources; the script is embedded over arbitrary kernels. *)

Section Script.

Variable cdist : vec -> vec -> Q.
Variable cosine : vec -> vec -> Q.

(** Lines 14-19. *)
Definition sort_by_centroid_distance
    (embeddings : matrix) (centroid : vec) (descending : bool)
  : result matrix :=
  let distances := map (fun e => cdist e centroid) embeddings in
  let sorted_indices := Np.argsort distances in
  let sorted_indices :=
    if descending then rev sorted_indices else sorted_indices in
  Np.take embeddings sorted_indices.

(** [cosine_similarity(X)] (line 99): the matrix of the similarities of
    all pairs of rows.  sklearn validates its input and rejects an array
    without rows with [ValueError]. *)
Definition cosine_similarity (X : matrix) : result matrix :=
  match X with
  | [] => Raise ValueError
  | _ :: _ => Ok (map (fun x => map (fun y => cosine x y) X) X)
  end.

(** [cluster_centers[i]] *)
Definition row_at (a : matrix) (i : nat) : result vec :=
  match nth_error a i with
  | Some r => Ok r
  | None => Raise IndexError
  end.

(** [cluster_labels == i] *)
Definition label_mask (cluster_labels : list Z) (i : nat) : list bool :=
  map (fun l => Z.eqb l (Z.of_nat i)) cluster_labels.

(** [embeddings[cluster_labels == i]] when the mask fits: the rows of
    cluster [i]. *)
Definition cluster_rows (embeddings : matrix) (cluster_labels : list Z)
    (i : nat) : matrix :=
  Np.select (label_mask cluster_labels i) embeddings.

(** The body of the loop, lines 90-108: the value of
    [points_to_keep_from_cluster_i] for cluster [i]. *)
Definition prune_cluster
    (embeddings : matrix) (cluster_labels : list Z) (cluster_centers : matrix)
    (epsilon : Q) (i : nat) : result (list matrix) :=
  cluster_i_embeddings <-
    Np.mask_index embeddings (label_mask cluster_labels i) ;;
  centroid <- row_at cluster_centers i ;;
  cluster_i_embeddings <-
    sort_by_centroid_distance cluster_i_embeddings centroid true ;;
  pairwise_sim_matrix <- cosine_similarity cluster_i_embeddings ;;
  let triu_sim_matrix := Np.triu1 pairwise_sim_matrix in
  column_max <- Np.max_axis0 triu_sim_matrix ;;
  M <- Np.item0 column_max ;;
  Ok (Np.bool_index cluster_i_embeddings (Qle_bool M (1 - epsilon))).

(** Lines 87-111: the loop over [range(num_clusters)], extending
    [points_to_keep] with what each cluster keeps. *)
Fixpoint prune_loop
    (embeddings : matrix) (cluster_labels : list Z) (cluster_centers : matrix)
    (epsilon : Q) (clusters : list nat) (points_to_keep : list matrix)
  : result (list matrix) :=
  match clusters with
  | [] => Ok points_to_keep
  | i :: clusters' =>
      kept <- prune_cluster embeddings cluster_labels cluster_centers epsilon i ;;
      prune_loop embeddings cluster_labels cluster_centers epsilon clusters'
        (points_to_keep ++ kept)
  end.

Definition prune
    (embeddings : matrix) (cluster_labels : list Z) (cluster_centers : matrix)
    (num_clusters : nat) (epsilon : Q) : result (list matrix) :=
  prune_loop embeddings cluster_labels cluster_centers epsilon
    (seq 0 num_clusters) [].

(** Modelled from the spec: the nearest-centroid search of the clustering
    library (faiss, lines 81-84) is not part of the sources.  Section 4.1
    assigns each vector to the centroid of highest cosine similarity; the
    first such centroid wins a tie, and the label is -1 when there is no
    centroid at all. *)
Fixpoint nearest_from (v : vec) (best : nat) (best_sim : Q)
    (i : nat) (centroids : matrix) : nat :=
  match centroids with
  | [] => best
  | c :: centroids' =>
      if Qle_bool (cosine c v) best_sim
      then nearest_from v best best_sim (S i) centroids'
      else nearest_from v i (cosine c v) (S i) centroids'
  end.

(** Modelled from the spec: the label of one vector, the position of
    its nearest centroid (section 4.1). *)
Definition nearest (centroids : matrix) (v : vec) : Z :=
  match centroids with
  | [] => (-1)%Z
  | c :: centroids' => Z.of_nat (nearest_from v 0 (cosine c v) 1 centroids')
  end.

(** Modelled from the spec: [index.search(embeddings, 1)] reshaped to one
    label per vector (lines 83-84), each vector on its own (section 4.1). *)
Definition search (centroids embeddings : matrix) : list Z :=
  map (nearest centroids) embeddings.

(** Modelled from the spec: the training of the clustering library
    (faiss.Kmeans.train, lines 69-70) is not part of the sources.
    Section 4.1 makes it fail with [InsufficientData] when there are
    fewer vectors than clusters; the refinement that yields the centroids
    is the parameter [fit]. *)
Definition train (fit : matrix -> nat -> matrix)
    (embeddings : matrix) (num_clusters : nat) : result matrix :=
  if length embeddings <? num_clusters then Raise InsufficientData
  else Ok (fit embeddings num_clusters).

(** Lines 69-85: the partitioner, centroids and one label per vector. *)
Definition partition (fit : matrix -> nat -> matrix)
    (embeddings : matrix) (num_clusters : nat) : result (matrix * list Z) :=
  cluster_centers <- train fit embeddings num_clusters ;;
  Ok (cluster_centers, search cluster_centers embeddings).

(** The member set of cluster [i]: the positions selected by the mask
    [cluster_labels == i] of line 91. *)
Definition members (cluster_labels : list Z) (i : nat) : list nat :=
  Np.flatnonzero (label_mask cluster_labels i).

(** The rule of section 4.2 of the specification, steps 3 and 4: M(j) is
    the largest similarity between member j and the members ranked
    before it, and j is kept when M(j) <= 1 - epsilon or when j has no
    predecessor. *)
Definition spec_M (before : matrix) (v : vec) : option Q :=
  match map (fun u => cosine u v) before with
  | [] => None
  | s :: sims => Some (fold_left Np.qmax sims s)
  end.

Definition spec_keeps (before : matrix) (v : vec) (epsilon : Q) : bool :=
  match spec_M before v with
  | None => true
  | Some m => Qle_bool m (1 - epsilon)
  end.

Fixpoint spec_prune (before ranked : matrix) (epsilon : Q) : matrix :=
  match ranked with
  | [] => []
  | v :: ranked' =>
      (if spec_keeps before v epsilon then [v] else [])
        ++ spec_prune (before ++ [v]) ranked' epsilon
  end.

End Script.

(** ** The script around the clustering *)

(** Line 52: [assert original_length == len(dataset)], followed by the
    rest of the script. *)
Definition assert_lengths {D A : Type} (original_length : nat)
    (dataset : list D) (rest : list D -> result A) : result A :=
  if original_length =? length dataset then rest dataset
  else Raise (AssertionError "The datasets do not have the same length."%string).

(** [dataset.filter(f, with_indices=True)] *)
Definition filter_with_indices {D : Type} (f : D -> nat -> bool)
    (dataset : list D) : list D :=
  map fst
    (filter (fun p => f (fst p) (snd p))
       (combine dataset (seq 0 (length dataset)))).

(** Lines 115-120: the projection of [points_to_keep] onto the dataset. *)
Definition filtered_dataset {D : Type} (dataset : list D)
    (points_to_keep : list matrix) : result (list D) :=
  points_to_keep <- Np.array points_to_keep ;;
  Ok (filter_with_indices (fun _ idx => Np.contains idx points_to_keep)
        dataset).

(** ** Sample kernels and data

    Kernels that compute on rationals: [Qsqrt] is the exact square root
    of a rational whose reduced numerator and denominator are squares,
    which is the case for every norm and distance of the sample data. *)

Definition Qsqrt (q : Q) : Q :=
  let r := Qred q in Z.sqrt (Qnum r) # Pos.sqrt (Qden r).

Definition dot (x y : vec) : Q :=
  fold_right Qplus 0 (map (fun p => fst p * snd p) (combine x y)).

Definition diff (x y : vec) : vec :=
  map (fun p => fst p - snd p) (combine x y).

Definition euclidean (x y : vec) : Q :=
  Qred (Qsqrt (dot (diff x y) (diff x y))).

Definition cosine_of (x y : vec) : Q :=
  Qred (dot x y / (Qsqrt (dot x x) * Qsqrt (dot y y))).

(** Three documents, the first and the last with the same embedding. *)
Definition sample_texts : list string :=
  ["the cat sat"; "stock prices fell"; "the cat sat"]%string.

Definition sample_embeddings : matrix :=
  [[3 # 5; 4 # 5]; [-3 # 5; -4 # 5]; [3 # 5; 4 # 5]].

Definition sample_center : vec := [3 # 5; 4 # 5].

(** One cluster holds all three; the second document is the farthest
    from the centroid, so it is ranked first. *)
Definition sample_labels : list Z := [0; 0; 0]%Z.

Definition sample_ranked : matrix :=
  [[-3 # 5; -4 # 5]; [3 # 5; 4 # 5]; [3 # 5; 4 # 5]].

(** The first [k] rows as centroids: a refinement that stops at once. *)
Definition first_rows (embeddings : matrix) (k : nat) : matrix :=
  firstn k embeddings.

(** ** The embedding step and the rest of the script *)

(** The exceptions of the embedding step, beside those of [exn]. *)
Inductive batch_exn : Type :=
| KeyError (key : string)
| RuntimeError
| Other (e : exn).

(** A batch as [dataset.map(.., batched=True)] hands it over: a
    dictionary from column names to columns, the keys distinct. *)
Definition batch : Type := list (string * list string).

(** [examples[key]] *)
Fixpoint lookup (key : string) (examples : batch) : option (list string) :=
  match examples with
  | [] => None
  | (k, column) :: examples' =>
      if String.eqb k key then Some column else lookup key examples'
  end.

(** Lines 32-35: one model per device, [load i] being the encoder of the
    model moved to device [i]. *)
Definition models (load : nat -> string -> vec) (num_gpus : nat)
  : list (string -> vec) :=
  map load (seq 0 num_gpus).

(** [torch.tensor(range(n)).fmod_(num_gpus)] (line 40): the remainders of
    0, .., n-1; on a tensor with elements, an integer remainder by zero
    raises [RuntimeError]. *)
Definition fmod_range (n num_gpus : nat) : batch_exn + list nat :=
  match n, num_gpus with
  | O, _ => inr []
  | S _, O => inl RuntimeError
  | S _, S _ => inr (map (fun j => Nat.modulo j num_gpus) (seq 0 n))
  end.

(** The loop of lines 43-45 over [zip(examples["text"], gpu_id)]. *)
Fixpoint encode_pairs (models : list (string -> vec))
    (pairs : list (string * nat)) : batch_exn + list vec :=
  match pairs with
  | [] => inr []
  | (ex, id) :: pairs' =>
      match nth_error models id with
      | None => inl (Other IndexError)
      | Some model =>
          match encode_pairs models pairs' with
          | inl e => inl e
          | inr embeddings => inr (model ex :: embeddings)
          end
      end
  end.

(** Lines 38-47: the value of the ["embeddings"] column that [embed_text]
    returns.  [len(examples)] is the number of columns of the batch. *)
Definition embed_text (load : nat -> string -> vec) (num_gpus : nat)
    (examples : batch) : batch_exn + list vec :=
  match fmod_range (length examples) num_gpus with
  | inl e => inl e
  | inr gpu_id =>
      match lookup "text" examples with
      | None => inl (KeyError "text")
      | Some texts => encode_pairs (models load num_gpus) (combine texts gpu_id)
      end
  end.

(** Line 55: the comprehension over the rows of the mapped dataset, each
    row a text with its embedding, and over the entries of the row's
    embedding. *)
Definition collect_embeddings (dataset : list (string * vec)) : list Q :=
  flat_map (fun example => snd example) dataset.

(** Lines 87-120: the pruning loop followed by the projection. *)
Definition deduplicate {D : Type} (cdist cosine : vec -> vec -> Q)
    (dataset : list D) (embeddings : matrix) (cluster_labels : list Z)
    (cluster_centers : matrix) (num_clusters : nat) (epsilon : Q)
  : result (list D) :=
  points_to_keep <-
    prune cdist cosine embeddings cluster_labels cluster_centers
      num_clusters epsilon ;;
  filtered_dataset dataset points_to_keep.

(** [l1] is [l2] with some elements left out, the order kept. *)
Inductive Subsequence {A : Type} : list A -> list A -> Prop :=
| Subsequence_nil : Subsequence [] []
| Subsequence_skip (x : A) (l1 l2 : list A) :
    Subsequence l1 l2 -> Subsequence l1 (x :: l2)
| Subsequence_keep (x : A) (l1 l2 : list A) :
    Subsequence l1 l2 -> Subsequence (x :: l1) (x :: l2).

(** A batch of three texts with the single column of the corpus, and an
    encoder that tags a text with its device and length. *)
Definition sample_batch : batch :=
  [("text", ["the cat sat"; "stock prices fell"; "the cat sat"])]%string.

Definition sample_load (device : nat) (ex : string) : vec :=
  [inject_Z (Z.of_nat device); inject_Z (Z.of_nat (String.length ex))].

(** Three unit vectors on the first axis, the first and the last equal. *)
Definition sample_axis_embeddings : matrix := [[1; 0]; [-1; 0]; [1; 0]].

(** The mapped dataset of the sample: each text with its embedding. *)
Definition sample_rows : list (string * vec) :=
  combine sample_texts sample_embeddings.

(** * Properties *)

(** ** Facts about the array operations *)

Lemma insert_key_perm (p : Q * nat) (l : list (Q * nat)) :
  Permutation (p :: l) (Np.insert_key p l).
Proof.
  induction l as [|q l IH]; simpl.
  - apply Permutation_refl.
  - destruct (Qle_bool (fst p) (fst q)).
    + apply Permutation_refl.
    + eapply perm_trans; [apply perm_swap|].
      apply perm_skip, IH.
Qed.

Lemma sort_keys_perm (l : list (Q * nat)) : Permutation l (Np.sort_keys l).
Proof.
  induction l as [|p l IH]; simpl.
  - apply perm_nil.
  - eapply perm_trans; [apply perm_skip, IH|].
    apply insert_key_perm.
Qed.

Lemma insert_key_sorted (p : Q * nat) (l : list (Q * nat)) :
  StronglySorted Np.key_le l -> StronglySorted Np.key_le (Np.insert_key p l).
Proof.
  induction l as [|q l IH]; simpl; intros Hs.
  - constructor; constructor.
  - apply StronglySorted_inv in Hs as [Hs Hq].
    destruct (Qle_bool (fst p) (fst q)) eqn:E.
    + apply Qle_bool_iff in E.
      constructor; [constructor; assumption|].
      constructor; [exact E|].
      eapply Forall_impl; [|exact Hq].
      intros r Hr. unfold Np.key_le in *. eapply Qle_trans; eassumption.
    + assert (Hlt : fst q <= fst p).
      { apply Qlt_le_weak, Qnot_le_lt. intros H.
        apply Qle_bool_iff in H. congruence. }
      constructor; [apply IH, Hs|].
      eapply Permutation_Forall; [apply insert_key_perm|].
      constructor; assumption.
Qed.

Lemma sort_keys_sorted (l : list (Q * nat)) :
  StronglySorted Np.key_le (Np.sort_keys l).
Proof.
  induction l as [|p l IH]; simpl.
  - constructor.
  - apply insert_key_sorted, IH.
Qed.

Lemma map_snd_combine_seq (col : list Q) (s : nat) :
  map snd (combine col (seq s (length col))) = seq s (length col).
Proof.
  revert s. induction col as [|x col IH]; intros s; simpl.
  - reflexivity.
  - f_equal. apply IH.
Qed.

Lemma argsort_perm (col : list Q) :
  Permutation (seq 0 (length col)) (Np.argsort col).
Proof.
  unfold Np.argsort.
  rewrite <- (map_snd_combine_seq col 0) at 1.
  apply Permutation_map, sort_keys_perm.
Qed.

Lemma take_map {A : Type} (d : A) (a : list A) (idx : list nat) :
  Forall (fun i => (i < length a)%nat) idx ->
  Np.take a idx = Ok (map (fun i => nth i a d) idx).
Proof.
  induction idx as [|i idx IH]; simpl; intros H.
  - reflexivity.
  - inversion H as [|? ? Hi Hidx]; subst.
    destruct (nth_error a i) as [r|] eqn:E.
    + rewrite (IH Hidx). simpl. f_equal. f_equal.
      symmetry. apply nth_error_nth with (d := d) in E. exact E.
    + apply nth_error_None in E. lia.
Qed.

Lemma map_nth_seq {A : Type} (d : A) (a : list A) :
  map (fun i => nth i a d) (seq 0 (length a)) = a.
Proof.
  induction a as [|x a IH]; simpl.
  - reflexivity.
  - f_equal. rewrite <- seq_shift, map_map. exact IH.
Qed.

Lemma StronglySorted_rev {A : Type} (R : A -> A -> Prop) (l : list A) :
  StronglySorted R l -> StronglySorted (fun a b => R b a) (rev l).
Proof.
  induction 1 as [|a l Hs IH Ha]; simpl.
  - constructor.
  - assert (G : forall l1 l2,
               StronglySorted (fun a b => R b a) l1 ->
               Forall (fun x => R a x) l1 ->
               l2 = [a] ->
               StronglySorted (fun a b => R b a) (l1 ++ l2)).
    { intros l1 l2 H1 H2 ->. induction H1 as [|b l1 Hb IHb Hf]; simpl.
      - constructor; constructor.
      - inversion H2; subst.
        constructor; [apply IHb; assumption|].
        apply Forall_app; split; [assumption|].
        constructor; [assumption|constructor]. }
    apply G; [exact IH| |reflexivity].
    apply Forall_rev, Ha.
Qed.

Lemma keys_of_combine {A : Type} (f : A -> Q) (d : A) (a : list A) (s : nat) :
  Forall (fun p => fst p = f (nth (snd p - s) a d)
                   /\ (s <= snd p < s + length a)%nat)
         (combine (map f a) (seq s (length (map f a)))).
Proof.
  revert s. induction a as [|x a IH]; intros s; simpl.
  - constructor.
  - constructor.
    + simpl. rewrite Nat.sub_diag. split; [reflexivity | lia].
    + eapply Forall_impl; [|apply (IH (S s))].
      intros [k i] [Hk Hi]; simpl in *. split; [|lia].
      rewrite Hk. destruct (i - s)%nat as [|m] eqn:E; [lia|].
      f_equal. f_equal. lia.
Qed.

Lemma StronglySorted_map_key {A : Type} (f : A -> Q) (g : Q * nat -> A)
    (l : list (Q * nat)) :
  Forall (fun p => fst p = f (g p)) l ->
  StronglySorted Np.key_le l ->
  StronglySorted (fun a b => f a <= f b) (map g l).
Proof.
  intros Hk Hs. induction Hs as [|p l Hs IH Hp]; simpl.
  - constructor.
  - inversion Hk as [|? ? Hkp Hkl]; subst.
    constructor; [apply IH, Hkl|].
    apply Forall_map.
    rewrite Forall_forall in *. intros q Hq.
    unfold Np.key_le in Hp. rewrite <- Hkp, <- (Hkl q Hq). apply Hp, Hq.
Qed.

Section SortFacts.

Variable cdist : vec -> vec -> Q.

(** What [sort_by_centroid_distance] returns, for both directions. *)
Lemma sort_by_centroid_distance_ascending
    (embeddings : matrix) (centroid : vec) :
  exists ranked,
    sort_by_centroid_distance cdist embeddings centroid false = Ok ranked
    /\ sort_by_centroid_distance cdist embeddings centroid true
       = Ok (rev ranked)
    /\ Permutation embeddings ranked
    /\ StronglySorted
         (fun a b => cdist a centroid <= cdist b centroid) ranked.
Proof.
  set (f := fun e : vec => cdist e centroid).
  set (ds := map f embeddings).
  set (sp := Np.sort_keys (combine ds (seq 0 (length ds)))).
  set (g := fun p : Q * nat => nth (snd p) embeddings ([] : vec)).
  assert (Hall : Forall (fun p => fst p = f (g p)
                                  /\ (snd p < length embeddings)%nat) sp).
  { eapply Permutation_Forall; [apply sort_keys_perm|].
    eapply Forall_impl; [|apply (keys_of_combine f ([] : vec) embeddings 0)].
    intros [k i] [Hk Hi]; simpl in *. unfold g; simpl.
    rewrite Nat.sub_0_r in Hk. split; [exact Hk | lia]. }
  assert (Hidx : Forall (fun i => (i < length embeddings)%nat) (map snd sp)).
  { apply Forall_map. eapply Forall_impl; [|exact Hall]. intros p [_ H]. exact H. }
  exists (map g sp). unfold sort_by_centroid_distance.
  fold f. fold ds. unfold Np.argsort. fold sp.
  repeat split.
  - rewrite (take_map ([] : vec) _ Hidx), map_map. reflexivity.
  - rewrite (take_map ([] : vec)) by (apply Forall_rev, Hidx).
    rewrite map_rev, map_map. reflexivity.
  - rewrite <- (map_nth_seq ([] : vec) embeddings) at 1.
    replace (map g sp) with (map (fun i => nth i embeddings ([] : vec)) (map snd sp))
      by (rewrite map_map; reflexivity).
    apply Permutation_map.
    replace (length embeddings) with (length ds)
      by (unfold ds; apply length_map).
    apply (argsort_perm ds).
  - apply (StronglySorted_map_key f g).
    + eapply Forall_impl; [|exact Hall]. intros p [H _]. exact H.
    + apply sort_keys_sorted.
Qed.

(** C6: with [descending=True], [sort_by_centroid_distance] returns the
    rows of its input, each as often as it occurs there, in descending
    order of their distance from the centroid: the farthest row first. *)
Theorem sort_by_centroid_distance_descending
    (embeddings : matrix) (centroid : vec) :
  exists ranked,
    sort_by_centroid_distance cdist embeddings centroid true = Ok ranked
    /\ Permutation embeddings ranked
    /\ StronglySorted
         (fun a b => cdist b centroid <= cdist a centroid) ranked.
Proof.
  destruct (sort_by_centroid_distance_ascending embeddings centroid)
    as (asc & _ & Hdesc & Hperm & Hsorted).
  exists (rev asc). repeat split.
  - exact Hdesc.
  - eapply perm_trans; [exact Hperm | apply Permutation_rev].
  - apply StronglySorted_rev in Hsorted. exact Hsorted.
Qed.

End SortFacts.

(** ** The reduction of the similarity matrix *)

Lemma triu_from_zero_headed (r : nat) (m : matrix) :
  Forall (fun row => row <> []) m ->
  Forall Np.zero_headed (Np.triu_from r m).
Proof.
  revert r. induction m as [|row m IH]; intros r H; simpl.
  - constructor.
  - inversion H as [|? ? Hrow Hm]; subst.
    constructor; [|apply IH, Hm].
    destruct row as [|x row]; [congruence|].
    simpl. exists (Np.triu_row r 1 row). reflexivity.
Qed.

Lemma fold_max_rows_zero_headed (m : matrix) (acc : vec) :
  Forall Np.zero_headed m -> Np.zero_headed acc ->
  Np.zero_headed (fold_left Np.max_rows m acc).
Proof.
  revert acc. induction m as [|row m IH]; intros acc Hm Hacc; simpl.
  - exact Hacc.
  - inversion Hm as [|? ? [t ->] Hm']; subst.
    destruct Hacc as [a ->].
    apply IH; [exact Hm'|].
    exists (Np.max_rows a t). reflexivity.
Qed.

(** The first column of [np.triu(m, k=1)] lies on or below the diagonal,
    so its maximum is the zero that [triu] wrote there. *)
Lemma first_column_max (m : matrix) :
  m <> [] -> Forall (fun row => row <> []) m ->
  exists t, Np.max_axis0 (Np.triu1 m) = Ok (0 :: t).
Proof.
  intros Hne Hrows. unfold Np.triu1.
  pose proof (triu_from_zero_headed 0 Hrows) as Hz.
  destruct m as [|row m]; [congruence|].
  simpl in *. inversion Hz as [|? ? Hrow Hm]; subst.
  destruct (fold_max_rows_zero_headed Hm Hrow) as [t Ht].
  exists t. rewrite Ht. reflexivity.
Qed.

Section PruneFacts.

Variable cdist : vec -> vec -> Q.
Variable cosine : vec -> vec -> Q.

Lemma cosine_similarity_rows (x : vec) (X : matrix) :
  exists sim,
    cosine_similarity cosine (x :: X) = Ok sim
    /\ sim <> [] /\ Forall (fun row => row <> []) sim.
Proof.
  eexists. split; [reflexivity|]. split; [discriminate|].
  apply Forall_map, Forall_forall. intros; discriminate.
Qed.

(** On a ranked list with at least one row, the scalar [M] of line 105
    is zero, whatever the similarities are. *)
Lemma scalar_M_is_zero (x : vec) (X : matrix) :
  (sim <- cosine_similarity cosine (x :: X) ;;
   column_max <- Np.max_axis0 (Np.triu1 sim) ;;
   Np.item0 column_max) = Ok 0.
Proof.
  destruct (cosine_similarity_rows x X) as (sim & -> & Hne & Hrows).
  destruct (first_column_max Hne Hrows) as [t Ht].
  simpl. rewrite Ht. reflexivity.
Qed.

Lemma mask_index_rows (embeddings : matrix) (cluster_labels : list Z) (i : nat) :
  length cluster_labels = length embeddings ->
  Np.mask_index embeddings (label_mask cluster_labels i)
  = Ok (cluster_rows embeddings cluster_labels i).
Proof.
  intros H. unfold Np.mask_index, label_mask.
  rewrite length_map, H, Nat.eqb_refl. reflexivity.
Qed.

(** What the loop body computes for a cluster with members: the whole
    ranked cluster as one block when [0 <= 1 - epsilon], and no block
    otherwise. *)
Lemma prune_cluster_members
    (embeddings : matrix) (cluster_labels : list Z) (cluster_centers : matrix)
    (epsilon : Q) (i : nat) (centroid : vec) :
  length cluster_labels = length embeddings ->
  nth_error cluster_centers i = Some centroid ->
  cluster_rows embeddings cluster_labels i <> [] ->
  exists ranked,
    sort_by_centroid_distance cdist
      (cluster_rows embeddings cluster_labels i) centroid true = Ok ranked
    /\ Permutation (cluster_rows embeddings cluster_labels i) ranked
    /\ prune_cluster cdist cosine embeddings cluster_labels cluster_centers
         epsilon i
       = Ok (Np.bool_index ranked (Qle_bool 0 (1 - epsilon))).
Proof.
  intros Hlen Hc Hne.
  destruct (sort_by_centroid_distance_ascending cdist
              (cluster_rows embeddings cluster_labels i) centroid)
    as (ascending & _ & Hsort & Hasc & _).
  assert (Hperm : Permutation (cluster_rows embeddings cluster_labels i)
                    (rev ascending))
    by (eapply perm_trans; [exact Hasc | apply Permutation_rev]).
  remember (rev ascending) as ranked eqn:Hranked. clear Hranked Hasc.
  exists ranked. split; [exact Hsort|]. split; [exact Hperm|].
  unfold prune_cluster.
  rewrite (mask_index_rows _ _ _ Hlen). simpl.
  unfold row_at. rewrite Hc. simpl. rewrite Hsort. simpl.
  destruct ranked as [|x X].
  - apply Permutation_sym, Permutation_nil in Hperm. congruence.
  - pose proof (scalar_M_is_zero x X) as HM.
    destruct (cosine_similarity cosine (x :: X)) as [sim|e]; [|discriminate].
    simpl in *.
    destruct (Np.max_axis0 (Np.triu1 sim)) as [column_max|e]; [|discriminate].
    simpl in *. rewrite HM. reflexivity.
Qed.

(** For a cluster without members the similarity computation rejects the
    empty array. *)
Lemma prune_cluster_empty
    (embeddings : matrix) (cluster_labels : list Z) (cluster_centers : matrix)
    (epsilon : Q) (i : nat) :
  length cluster_labels = length embeddings ->
  (i < length cluster_centers)%nat ->
  cluster_rows embeddings cluster_labels i = [] ->
  prune_cluster cdist cosine embeddings cluster_labels cluster_centers
    epsilon i = Raise ValueError.
Proof.
  intros Hlen Hi Hemp. unfold prune_cluster.
  rewrite (mask_index_rows _ _ _ Hlen), Hemp. simpl.
  unfold row_at. destruct (nth_error cluster_centers i) eqn:E.
  - reflexivity.
  - apply nth_error_None in E. lia.
Qed.

Lemma threshold_nonneg (epsilon : Q) :
  epsilon <= 1 -> Qle_bool 0 (1 - epsilon) = true.
Proof.
  intros H. apply Qle_bool_iff.
  setoid_replace 0 with (epsilon - epsilon) by ring.
  unfold Qminus. apply Qplus_le_l. exact H.
Qed.

Lemma threshold_mono (m e1 e2 : Q) :
  e1 <= e2 -> Qle_bool m (1 - e2) = true -> Qle_bool m (1 - e1) = true.
Proof.
  intros H H2. apply Qle_bool_iff in H2. apply Qle_bool_iff.
  eapply Qle_trans; [exact H2|].
  unfold Qminus. apply Qplus_le_r. apply Qopp_le_compat. exact H.
Qed.

End PruneFacts.

(** ** The keep-set of a cluster *)

Section KeepSet.

Variable cdist : vec -> vec -> Q.
Variable cosine : vec -> vec -> Q.

(** C5: in a cluster with members, for every epsilon strictly between 0
    and 1, the first row of the ranked order (the member farthest from
    the centroid) is the first row the pruning pass keeps. *)
Theorem first_ranked_member_kept
    (embeddings : matrix) (cluster_labels : list Z) (cluster_centers : matrix)
    (epsilon : Q) (i : nat) (centroid first : vec) (others : matrix) :
  length cluster_labels = length embeddings ->
  nth_error cluster_centers i = Some centroid ->
  sort_by_centroid_distance cdist
    (cluster_rows embeddings cluster_labels i) centroid true
  = Ok (first :: others) ->
  0 < epsilon -> epsilon < 1 ->
  exists kept,
    prune_cluster cdist cosine embeddings cluster_labels cluster_centers
      epsilon i = Ok kept
    /\ hd_error (concat kept) = Some first.
Proof.
  intros Hlen Hc Hsort _ Hlt.
  assert (Hne : cluster_rows embeddings cluster_labels i <> []).
  { intros E. rewrite E in Hsort. discriminate. }
  destruct (prune_cluster_members cdist cosine embeddings cluster_labels
              cluster_centers epsilon i Hlen Hc Hne)
    as (ranked & Hsort' & _ & Hprune).
  rewrite Hsort in Hsort'. injection Hsort' as <-.
  rewrite threshold_nonneg in Hprune by (apply Qlt_le_weak, Hlt).
  eexists. split; [exact Hprune | reflexivity].
Qed.

Lemma prune_cluster_antimonotone
    (embeddings : matrix) (cluster_labels : list Z) (cluster_centers : matrix)
    (e1 e2 : Q) (i : nat) (kept2 : list matrix) :
  e1 <= e2 ->
  prune_cluster cdist cosine embeddings cluster_labels cluster_centers e2 i
  = Ok kept2 ->
  exists kept1,
    prune_cluster cdist cosine embeddings cluster_labels cluster_centers e1 i
    = Ok kept1
    /\ (kept2 = [] \/ kept2 = kept1).
Proof.
  intros Hle. unfold prune_cluster.
  destruct (Np.mask_index embeddings (label_mask cluster_labels i))
    as [rows|]; simpl; [|discriminate].
  destruct (row_at cluster_centers i) as [centroid|]; simpl; [|discriminate].
  destruct (sort_by_centroid_distance cdist rows centroid true)
    as [ranked|]; simpl; [|discriminate].
  destruct (cosine_similarity cosine ranked) as [sim|]; simpl; [|discriminate].
  destruct (Np.max_axis0 (Np.triu1 sim)) as [column_max|]; simpl;
    [|discriminate].
  destruct (Np.item0 column_max) as [M|]; simpl; [|discriminate].
  intros H. injection H as <-.
  destruct (Qle_bool M (1 - e2)) eqn:E2.
  - rewrite (threshold_mono M Hle E2). eexists. split; [reflexivity|].
    right. reflexivity.
  - eexists. split; [reflexivity|]. left. reflexivity.
Qed.

Lemma prune_loop_antimonotone
    (embeddings : matrix) (cluster_labels : list Z) (cluster_centers : matrix)
    (e1 e2 : Q) (clusters : list nat) :
  e1 <= e2 ->
  forall acc1 acc2 pts2,
    incl (concat acc2) (concat acc1) ->
    (length (concat acc2) <= length (concat acc1))%nat ->
    prune_loop cdist cosine embeddings cluster_labels cluster_centers e2
      clusters acc2 = Ok pts2 ->
    exists pts1,
      prune_loop cdist cosine embeddings cluster_labels cluster_centers e1
        clusters acc1 = Ok pts1
      /\ incl (concat pts2) (concat pts1)
      /\ (length (concat pts2) <= length (concat pts1))%nat.
Proof.
  intros Hle. induction clusters as [|i clusters IH];
    intros acc1 acc2 pts2 Hincl Hlen; simpl.
  - intros H. injection H as <-. exists acc1. auto.
  - destruct (prune_cluster cdist cosine embeddings cluster_labels
                cluster_centers e2 i) as [kept2|] eqn:E2; simpl;
      [|discriminate].
    destruct (prune_cluster_antimonotone _ _ _ _ Hle E2)
      as (kept1 & -> & Hk). simpl.
    apply IH.
    + rewrite !concat_app. destruct Hk as [-> | ->].
      * simpl. rewrite app_nil_r. apply incl_appl, Hincl.
      * apply incl_app_app; [exact Hincl | apply incl_refl].
    + rewrite !concat_app, !length_app. destruct Hk as [-> | ->]; simpl; lia.
Qed.

(** C4: for fixed vectors, labels and centroids, raising epsilon never
    brings back a member: from [e1 < e2], every row kept at [e2] is kept
    at [e1], so what is discarded at [e1] stays discarded at [e2] and at
    least as many rows are discarded; for each cluster and for the whole
    loop. *)
Theorem keep_set_antimonotone
    (embeddings : matrix) (cluster_labels : list Z) (cluster_centers : matrix)
    (num_clusters : nat) (e1 e2 : Q) :
  e1 < e2 ->
  (forall i kept2,
      prune_cluster cdist cosine embeddings cluster_labels cluster_centers
        e2 i = Ok kept2 ->
      exists kept1,
        prune_cluster cdist cosine embeddings cluster_labels cluster_centers
          e1 i = Ok kept1
        /\ incl (concat kept2) (concat kept1)
        /\ (length (concat kept2) <= length (concat kept1))%nat)
  /\ (forall pts2,
         prune cdist cosine embeddings cluster_labels cluster_centers
           num_clusters e2 = Ok pts2 ->
         exists pts1,
           prune cdist cosine embeddings cluster_labels cluster_centers
             num_clusters e1 = Ok pts1
           /\ incl (concat pts2) (concat pts1)
           /\ (length (concat pts2) <= length (concat pts1))%nat).
Proof.
  intros Hlt. apply Qlt_le_weak in Hlt. split.
  - intros i kept2 H2.
    destruct (prune_cluster_antimonotone _ _ _ _ Hlt H2)
      as (kept1 & H1 & Hk).
    exists kept1. split; [exact H1|].
    destruct Hk as [-> | ->]; simpl.
    + split; [apply incl_nil_l | lia].
    + split; [apply incl_refl | lia].
  - intros pts2 H2. unfold prune in *.
    eapply prune_loop_antimonotone; eauto.
    apply incl_refl.
Qed.

End KeepSet.

(** ** Clusters as a split of the rows *)

Lemma flat_map_unchanged {A : Type} (F G : nat -> list A) (l : list nat) :
  (forall i, In i l -> F i = G i) -> flat_map F l = flat_map G l.
Proof.
  induction l as [|i l IH]; simpl; intros H.
  - reflexivity.
  - rewrite (H i) by (left; reflexivity).
    rewrite IH by (intros; apply H; right; assumption).
    reflexivity.
Qed.

Lemma flat_map_insert {A : Type} (F : nat -> list A) (e : A) (j : nat)
    (l : list nat) :
  NoDup l -> In j l ->
  Permutation (e :: flat_map F l)
    (flat_map (fun i => if Nat.eqb j i then e :: F i else F i) l).
Proof.
  induction l as [|i l IH]; simpl; intros Hnd Hin.
  - contradiction.
  - apply NoDup_cons_iff in Hnd as [Hni Hnd].
    destruct (Nat.eqb_spec j i) as [->|Hne].
    + simpl. apply perm_skip, Permutation_app_head.
      rewrite (flat_map_unchanged
                 (fun k => if Nat.eqb i k then e :: F k else F k) F).
      * apply Permutation_refl.
      * intros k Hk. destruct (Nat.eqb_spec i k); [subst; contradiction|].
        reflexivity.
    + destruct Hin as [->|Hin]; [congruence|].
      eapply perm_trans; [apply Permutation_middle|].
      apply Permutation_app_head, IH; assumption.
Qed.

Lemma cluster_rows_cons (e : vec) (embeddings : matrix) (l : Z)
    (cluster_labels : list Z) (i : nat) :
  cluster_rows (e :: embeddings) (l :: cluster_labels) i
  = if Z.eqb l (Z.of_nat i)
    then e :: cluster_rows embeddings cluster_labels i
    else cluster_rows embeddings cluster_labels i.
Proof. reflexivity. Qed.

(** When every label names one of the clusters, the clusters together
    hold every row exactly once. *)
Lemma clusters_cover_rows (num_clusters : nat) (embeddings : matrix) :
  forall cluster_labels,
    length cluster_labels = length embeddings ->
    Forall (fun l => (0 <= l < Z.of_nat num_clusters)%Z) cluster_labels ->
    Permutation embeddings
      (flat_map (cluster_rows embeddings cluster_labels)
         (seq 0 num_clusters)).
Proof.
  induction embeddings as [|e embeddings IH];
    intros [|l cluster_labels] Hlen Hall; simpl in Hlen; try discriminate.
  - rewrite (flat_map_unchanged _ (fun _ => ([] : matrix)))
      by reflexivity.
    induction (seq 0 num_clusters); simpl; [constructor | assumption].
  - inversion Hall as [|? ? Hl Hrest]; subst.
    injection Hlen as Hlen.
    eapply perm_trans; [apply perm_skip, (IH cluster_labels Hlen Hrest)|].
    eapply perm_trans;
      [apply (@flat_map_insert _ _ e (Z.to_nat l) (seq 0 num_clusters));
       [apply seq_NoDup | apply in_seq; lia]|].
    rewrite (flat_map_unchanged _
               (cluster_rows (e :: embeddings) (l :: cluster_labels))).
    + apply Permutation_refl.
    + intros i _. rewrite cluster_rows_cons.
      destruct (Nat.eqb_spec (Z.to_nat l) i) as [<-|Hne].
      * rewrite Z2Nat.id by lia. rewrite Z.eqb_refl. reflexivity.
      * destruct (Z.eqb_spec l (Z.of_nat i)) as [->|]; [|reflexivity].
        rewrite Nat2Z.id in Hne. congruence.
Qed.

Section KeepAll.

Variable cdist : vec -> vec -> Q.
Variable cosine : vec -> vec -> Q.

Lemma prune_loop_keeps_all
    (embeddings : matrix) (cluster_labels : list Z) (cluster_centers : matrix)
    (epsilon : Q) (clusters : list nat) :
  epsilon <= 1 ->
  length cluster_labels = length embeddings ->
  Forall (fun i => (i < length cluster_centers)%nat
                   /\ cluster_rows embeddings cluster_labels i <> [])
         clusters ->
  forall acc,
  exists blocks,
    prune_loop cdist cosine embeddings cluster_labels cluster_centers epsilon
      clusters acc = Ok (acc ++ blocks)
    /\ Forall2 (fun i b => Permutation
                             (cluster_rows embeddings cluster_labels i) b)
         clusters blocks.
Proof.
  intros Heps Hlen. induction clusters as [|i clusters IH]; intros Hall acc.
  - exists []. simpl. rewrite app_nil_r. split; [reflexivity | constructor].
  - inversion Hall as [|? ? [Hi Hne] Hrest]; subst.
    destruct (nth_error cluster_centers i) as [centroid|] eqn:Hc;
      [|apply nth_error_None in Hc; lia].
    destruct (prune_cluster_members cdist cosine embeddings cluster_labels
                cluster_centers epsilon i Hlen Hc Hne)
      as (ranked & _ & Hperm & Hprune).
    rewrite (threshold_nonneg Heps) in Hprune.
    destruct (IH Hrest (acc ++ [ranked])) as (blocks & Hloop & Hblocks).
    exists (ranked :: blocks). simpl. rewrite Hprune. simpl.
    rewrite Hloop, <- app_assoc. split; [reflexivity|].
    constructor; assumption.
Qed.

Lemma concat_blocks (rows : nat -> matrix) (clusters : list nat)
    (blocks : list matrix) :
  Forall2 (fun i b => Permutation (rows i) b) clusters blocks ->
  Permutation (flat_map rows clusters) (concat blocks).
Proof.
  induction 1 as [|i b clusters blocks Hb _ IH]; simpl.
  - constructor.
  - apply Permutation_app; assumption.
Qed.

(** C3: with epsilon at its upper bound 1, and for every epsilon up to
    it, no member of a cluster is discarded: each cluster with members
    keeps its whole ranked list, and when every label names a cluster
    and no cluster is empty the rows kept by the loop are the rows of
    [embeddings], each as often as it occurs there. *)
Theorem keeps_everything_at_upper_bound
    (embeddings : matrix) (cluster_labels : list Z) (cluster_centers : matrix)
    (num_clusters : nat) (epsilon : Q) :
  epsilon <= 1 ->
  length cluster_labels = length embeddings ->
  (num_clusters <= length cluster_centers)%nat ->
  (forall i, (i < num_clusters)%nat ->
     cluster_rows embeddings cluster_labels i <> [] ->
     exists ranked,
       prune_cluster cdist cosine embeddings cluster_labels cluster_centers
         epsilon i = Ok [ranked]
       /\ Permutation (cluster_rows embeddings cluster_labels i) ranked)
  /\ (Forall (fun l => (0 <= l < Z.of_nat num_clusters)%Z) cluster_labels ->
      (forall i, (i < num_clusters)%nat ->
                 cluster_rows embeddings cluster_labels i <> []) ->
      exists points_to_keep,
        prune cdist cosine embeddings cluster_labels cluster_centers
          num_clusters epsilon = Ok points_to_keep
        /\ Permutation embeddings (concat points_to_keep)).
Proof.
  intros Heps Hlen HK. split.
  - intros i Hi Hne.
    destruct (nth_error cluster_centers i) as [centroid|] eqn:Hc;
      [|apply nth_error_None in Hc; lia].
    destruct (prune_cluster_members cdist cosine embeddings cluster_labels
                cluster_centers epsilon i Hlen Hc Hne)
      as (ranked & _ & Hperm & Hprune).
    rewrite (threshold_nonneg Heps) in Hprune.
    exists ranked. split; assumption.
  - intros Hlabels Hne.
    assert (Hall : Forall
               (fun i => (i < length cluster_centers)%nat
                         /\ cluster_rows embeddings cluster_labels i <> [])
               (seq 0 num_clusters)).
    { apply Forall_forall. intros i Hi. apply in_seq in Hi.
      split; [lia | apply Hne; lia]. }
    destruct (@prune_loop_keeps_all embeddings cluster_labels cluster_centers
                epsilon (seq 0 num_clusters) Heps Hlen Hall [])
      as (blocks & Hloop & Hblocks).
    exists blocks. split; [exact Hloop|].
    eapply perm_trans; [apply (clusters_cover_rows num_clusters); eassumption|].
    apply concat_blocks, Hblocks.
Qed.

End KeepAll.

(** ** The partitioner *)

Lemma in_nonzero_from (mask : list bool) (s n : nat) :
  In n (Np.nonzero_from s mask)
  <-> (s <= n)%nat /\ nth_error mask (n - s) = Some true.
Proof.
  revert s. induction mask as [|b mask IH]; intros s; simpl.
  - split; [contradiction|]. intros [_ H].
    destruct (n - s)%nat; discriminate.
  - assert (Htail : In n (Np.nonzero_from (S s) mask)
                    <-> (s < n)%nat /\ nth_error mask (n - S s) = Some true).
    { rewrite IH. split; intros [H1 H2]; (split; [lia | exact H2]). }
    destruct (Nat.eq_dec n s) as [->|Hne].
    + rewrite Nat.sub_diag. simpl. destruct b; simpl.
      * split; [intros _; split; [lia | reflexivity] | intros _; left; reflexivity].
      * rewrite Htail. split; [intros [H _]; lia | intros [_ H]; discriminate].
    + assert (E : (n - s = S (n - S s))%nat \/ (n < s)%nat) by lia.
      destruct E as [E|E].
      * rewrite E. simpl. destruct b; simpl; rewrite Htail.
        -- split; [intros [H|[H1 H2]]; [congruence | split; [lia | exact H2]]
                  | intros [H1 H2]; right; split; [lia | exact H2]].
        -- split; intros [H1 H2]; (split; [lia | exact H2]).
      * destruct b; simpl; rewrite Htail;
          (split; [intros H; repeat destruct H as [H|H]; try lia;
                   destruct H; lia
                  | intros [H _]; lia]).
Qed.

Lemma in_members (cluster_labels : list Z) (i n : nat) :
  In n (members cluster_labels i)
  <-> nth_error cluster_labels n = Some (Z.of_nat i).
Proof.
  unfold members, Np.flatnonzero, label_mask.
  rewrite in_nonzero_from, Nat.sub_0_r, nth_error_map.
  destruct (nth_error cluster_labels n) as [l|]; simpl.
  - split.
    + intros [_ H]. injection H as H. apply Z.eqb_eq in H. congruence.
    + intros H. injection H as ->. rewrite Z.eqb_refl.
      split; [lia | reflexivity].
  - split; [intros [_ H]; discriminate | discriminate].
Qed.

Lemma empty_members_empty_rows (embeddings : matrix) (cluster_labels : list Z)
    (i : nat) :
  members cluster_labels i = [] ->
  cluster_rows embeddings cluster_labels i = [].
Proof.
  unfold members, cluster_rows, Np.flatnonzero.
  generalize (label_mask cluster_labels i) as mask. generalize 0%nat as s.
  intros s mask. revert s embeddings.
  induction mask as [|b mask IH]; intros s embeddings; simpl.
  - reflexivity.
  - destruct b; [discriminate|].
    intros H. destruct embeddings as [|e embeddings]; [reflexivity|].
    apply (IH (S s)), H.
Qed.

Section PartitionFacts.

Variable cdist : vec -> vec -> Q.
Variable cosine : vec -> vec -> Q.

Lemma nearest_from_bound (v : vec) (centroids : matrix) :
  forall best best_sim i,
    (best < i)%nat ->
    (nearest_from cosine v best best_sim i centroids
     < i + length centroids)%nat.
Proof.
  induction centroids as [|c centroids IH]; intros best best_sim i Hb; simpl.
  - lia.
  - destruct (Qle_bool (cosine c v) best_sim).
    + specialize (IH best best_sim (S i)). lia.
    + specialize (IH i (cosine c v) (S i)). lia.
Qed.

Lemma nearest_range (centroids : matrix) (v : vec) :
  centroids <> [] ->
  (0 <= nearest cosine centroids v < Z.of_nat (length centroids))%Z.
Proof.
  destruct centroids as [|c centroids]; [congruence|]. intros _.
  unfold nearest.
  pose proof (nearest_from_bound v centroids (best := 0) (cosine c v) (i := 1)).
  simpl length. lia.
Qed.

(** C7: on N >= K vectors and K >= 1 clusters, with a training that
    yields K centroids, the partitioner returns, and it gives every
    vector one label in [0, K); the member sets of the K clusters are
    pairwise disjoint and together they are the positions [0, N). *)
Theorem partition_is_complete_and_disjoint
    (fit : matrix -> nat -> matrix) (embeddings : matrix)
    (num_clusters : nat) :
  (0 < num_clusters)%nat ->
  (num_clusters <= length embeddings)%nat ->
  length (fit embeddings num_clusters) = num_clusters ->
  exists cluster_centers cluster_labels,
    partition cosine fit embeddings num_clusters
    = Ok (cluster_centers, cluster_labels)
    /\ length cluster_labels = length embeddings
    /\ Forall (fun l => (0 <= l < Z.of_nat num_clusters)%Z) cluster_labels
    /\ (forall i j n,
           In n (members cluster_labels i) ->
           In n (members cluster_labels j) -> i = j)
    /\ (forall n,
           (exists i, (i < num_clusters)%nat
                      /\ In n (members cluster_labels i))
           <-> (n < length embeddings)%nat).
Proof.
  intros Hpos HN HK.
  exists (fit embeddings num_clusters),
         (search cosine (fit embeddings num_clusters) embeddings).
  split.
  { unfold partition, train.
    destruct (Nat.ltb_spec (length embeddings) num_clusters); [lia|].
    reflexivity. }
  assert (Hrange : Forall (fun l => (0 <= l < Z.of_nat num_clusters)%Z)
                     (search cosine (fit embeddings num_clusters) embeddings)).
  { unfold search. apply Forall_map, Forall_forall. intros v _.
    pose proof (@nearest_range (fit embeddings num_clusters) v) as Hr.
    rewrite HK in Hr. apply Hr.
    destruct (fit embeddings num_clusters); [simpl in HK; lia | discriminate]. }
  split; [apply length_map|]. split; [exact Hrange|]. split.
  - intros i j n Hi Hj. apply in_members in Hi, Hj.
    rewrite Hi in Hj. injection Hj as Hj. lia.
  - intros n. split.
    + intros (i & _ & Hi). apply in_members in Hi.
      assert (Hsome : nth_error
                        (search cosine (fit embeddings num_clusters) embeddings)
                        n <> None) by congruence.
      apply nth_error_Some in Hsome. unfold search in Hsome.
      rewrite length_map in Hsome. exact Hsome.
    + intros Hn.
      destruct (nth_error
                  (search cosine (fit embeddings num_clusters) embeddings) n)
        as [l|] eqn:E.
      * rewrite Forall_forall in Hrange.
        pose proof (Hrange l (nth_error_In _ _ E)) as Hl.
        exists (Z.to_nat l). split; [lia|].
        apply in_members. rewrite Z2Nat.id by lia. exact E.
      * apply nth_error_None in E. unfold search in E.
        rewrite length_map in E. lia.
Qed.

(** C8: with fewer vectors than requested clusters the partitioner fails
    with [InsufficientData] and returns neither centroids nor labels. *)
Theorem partition_insufficient_data
    (fit : matrix -> nat -> matrix) (embeddings : matrix) (num_clusters : nat) :
  (length embeddings < num_clusters)%nat ->
  partition cosine fit embeddings num_clusters = Raise InsufficientData.
Proof.
  intros H. unfold partition, train.
  apply Nat.ltb_lt in H. rewrite H. reflexivity.
Qed.

(** ** Empty clusters *)

Lemma prune_loop_empty_cluster
    (embeddings : matrix) (cluster_labels : list Z) (cluster_centers : matrix)
    (epsilon : Q) (i : nat) (clusters : list nat) :
  length cluster_labels = length embeddings ->
  Forall (fun j => (j < length cluster_centers)%nat) clusters ->
  In i clusters ->
  cluster_rows embeddings cluster_labels i = [] ->
  forall acc,
    prune_loop cdist cosine embeddings cluster_labels cluster_centers epsilon
      clusters acc = Raise ValueError.
Proof.
  intros Hlen Hall Hin Hemp.
  induction clusters as [|j clusters IH]; intros acc; simpl.
  - contradiction.
  - inversion Hall as [|? ? Hj Hrest]; subst.
    destruct (cluster_rows embeddings cluster_labels j) as [|x X] eqn:Ej.
    + rewrite (prune_cluster_empty cdist cosine embeddings cluster_labels
                 cluster_centers epsilon Hlen Hj Ej).
      reflexivity.
    + destruct (nth_error cluster_centers j) as [centroid|] eqn:Hc;
        [|apply nth_error_None in Hc; lia].
      assert (Hne : cluster_rows embeddings cluster_labels j <> [])
        by (rewrite Ej; discriminate).
      destruct (prune_cluster_members cdist cosine embeddings cluster_labels
                  cluster_centers epsilon j Hlen Hc Hne)
        as (ranked & _ & _ & ->).
      simpl. apply IH; [exact Hrest|].
      destruct Hin as [->|Hin]; [congruence | exact Hin].
Qed.

Lemma prune_empty_cluster
    (embeddings : matrix) (cluster_labels : list Z) (cluster_centers : matrix)
    (num_clusters : nat) (epsilon : Q) (i : nat) :
  length cluster_labels = length embeddings ->
  (num_clusters <= length cluster_centers)%nat ->
  (i < num_clusters)%nat ->
  members cluster_labels i = [] ->
  prune cdist cosine embeddings cluster_labels cluster_centers
    num_clusters epsilon = Raise ValueError.
Proof.
  intros Hlen HK Hi Hemp. unfold prune.
  apply prune_loop_empty_cluster with (i := i).
  - exact Hlen.
  - apply Forall_forall. intros j Hj. apply in_seq in Hj. lia.
  - apply in_seq. lia.
  - apply empty_members_empty_rows, Hemp.
Qed.

(** C10, as amended: when some cluster id below K has no member, the
    pruning loop does not skip that cluster; it stops with the
    [ValueError] that the similarity computation raises on an array
    without rows, and returns no keep-set. *)
Theorem empty_cluster_stops_the_loop
    (embeddings : matrix) (cluster_labels : list Z) (cluster_centers : matrix)
    (num_clusters : nat) (epsilon : Q) (i : nat) :
  length cluster_labels = length embeddings ->
  (num_clusters <= length cluster_centers)%nat ->
  (i < num_clusters)%nat ->
  members cluster_labels i = [] ->
  prune cdist cosine embeddings cluster_labels cluster_centers
    num_clusters epsilon = Raise ValueError
  /\ forall points_to_keep,
       prune cdist cosine embeddings cluster_labels cluster_centers
         num_clusters epsilon <> Ok points_to_keep.
Proof.
  intros Hlen HK Hi Hemp.
  rewrite (prune_empty_cluster embeddings cluster_labels cluster_centers
             epsilon Hlen HK Hi Hemp).
  split; [reflexivity | discriminate].
Qed.

End PartitionFacts.

(** ** The assertion and the projection *)

(** C9: when the dataset that comes back from the embedding step has
    another length than the original one, the script stops at the
    assertion with its [AssertionError]; nothing of the rest of the
    script, clustering included, is run. *)
Theorem length_mismatch_aborts {D A : Type} (original_length : nat)
    (dataset : list D) (rest : list D -> result A) :
  original_length <> length dataset ->
  assert_lengths original_length dataset rest
  = Raise (AssertionError "The datasets do not have the same length."%string).
Proof.
  intros H. unfold assert_lengths.
  apply Nat.eqb_neq in H. rewrite H. reflexivity.
Qed.

(** ** The script on the sample data *)

(** C1: on the sample cluster the third-ranked member is an exact copy
    of the second, so the rule of the specification (M = 1 > 0.91)
    discards it; the loop body reduces the matrix to the scalar 0 and
    keeps the whole ranked cluster as one block. *)
Theorem pruning_keeps_exact_duplicate :
  sort_by_centroid_distance euclidean
    (cluster_rows sample_embeddings sample_labels 0) sample_center true
  = Ok sample_ranked
  /\ spec_M cosine_of [[-3 # 5; -4 # 5]; [3 # 5; 4 # 5]] [3 # 5; 4 # 5]
     = Some 1
  /\ spec_prune cosine_of [] sample_ranked (9 # 100)
     = [[-3 # 5; -4 # 5]; [3 # 5; 4 # 5]]
  /\ prune_cluster euclidean cosine_of sample_embeddings sample_labels
       [sample_center] (9 # 100) 0
     = Ok [sample_ranked].
Proof. vm_compute. repeat split. Qed.

(** C2: on the sample data [points_to_keep] holds the embedding rows of
    the cluster, not positions of documents, and the projection tests
    the positions 0, 1 and 2 against the coordinates of those rows: it
    returns no document although the loop kept all three members. *)
Theorem projection_tests_positions_against_coordinates :
  prune euclidean cosine_of sample_embeddings sample_labels
    [sample_center] 1 (9 # 100)
  = Ok [sample_ranked]
  /\ filtered_dataset sample_texts [sample_ranked] = Ok [].
Proof. vm_compute. split; reflexivity. Qed.

(** No run with an empty cluster ends in [IndexError]. *)
Lemma empty_cluster_is_no_index_error :
  ~ exists (cdist cosine : vec -> vec -> Q) (embeddings : matrix)
      (cluster_labels : list Z) (cluster_centers : matrix)
      (num_clusters : nat) (epsilon : Q) (i : nat),
      length cluster_labels = length embeddings
      /\ (num_clusters <= length cluster_centers)%nat
      /\ (i < num_clusters)%nat
      /\ members cluster_labels i = []
      /\ prune cdist cosine embeddings cluster_labels cluster_centers
           num_clusters epsilon = Raise IndexError.
Proof.
  intros (cdist & cosine & embeddings & cluster_labels & cluster_centers
          & num_clusters & epsilon & i & Hlen & HK & Hi & Hemp & H).
  rewrite (prune_empty_cluster cdist cosine embeddings cluster_labels
             cluster_centers epsilon Hlen HK Hi Hemp) in H.
  discriminate.
Qed.

(** ** The theorems at the sample data *)

Lemma first_ranked_member_kept_sample :
  exists kept,
    prune_cluster euclidean cosine_of sample_embeddings sample_labels
      [sample_center] (9 # 100) 0 = Ok kept
    /\ hd_error (concat kept) = Some [-3 # 5; -4 # 5].
Proof.
  apply (@first_ranked_member_kept euclidean cosine_of sample_embeddings
           sample_labels [sample_center] (9 # 100) 0%nat sample_center
           [-3 # 5; -4 # 5] [[3 # 5; 4 # 5]; [3 # 5; 4 # 5]]).
  - reflexivity.
  - reflexivity.
  - vm_compute. reflexivity.
  - reflexivity.
  - reflexivity.
Defined.

Lemma keep_set_antimonotone_sample :
  (forall i kept2,
      prune_cluster euclidean cosine_of sample_embeddings sample_labels
        [sample_center] (1 # 2) i = Ok kept2 ->
      exists kept1,
        prune_cluster euclidean cosine_of sample_embeddings sample_labels
          [sample_center] (9 # 100) i = Ok kept1
        /\ incl (concat kept2) (concat kept1)
        /\ (length (concat kept2) <= length (concat kept1))%nat)
  /\ (forall pts2,
         prune euclidean cosine_of sample_embeddings sample_labels
           [sample_center] 1 (1 # 2) = Ok pts2 ->
         exists pts1,
           prune euclidean cosine_of sample_embeddings sample_labels
             [sample_center] 1 (9 # 100) = Ok pts1
           /\ incl (concat pts2) (concat pts1)
           /\ (length (concat pts2) <= length (concat pts1))%nat).
Proof.
  apply (@keep_set_antimonotone euclidean cosine_of sample_embeddings
           sample_labels [sample_center] 1%nat (9 # 100) (1 # 2)).
  reflexivity.
Defined.

Lemma keeps_everything_at_upper_bound_sample :
  (forall i, (i < 1)%nat ->
     cluster_rows sample_embeddings sample_labels i <> [] ->
     exists ranked,
       prune_cluster euclidean cosine_of sample_embeddings sample_labels
         [sample_center] 1 i = Ok [ranked]
       /\ Permutation (cluster_rows sample_embeddings sample_labels i) ranked)
  /\ exists points_to_keep,
       prune euclidean cosine_of sample_embeddings sample_labels
         [sample_center] 1 1 = Ok points_to_keep
       /\ Permutation sample_embeddings (concat points_to_keep).
Proof.
  destruct (@keeps_everything_at_upper_bound euclidean cosine_of
              sample_embeddings sample_labels [sample_center] 1%nat 1)
    as [Hcluster Hloop].
  - unfold Qle. simpl. lia.
  - reflexivity.
  - simpl. lia.
  - split; [exact Hcluster|]. apply Hloop.
    + repeat constructor; simpl; lia.
    + intros i Hi. assert (i = 0%nat) as -> by lia. vm_compute. discriminate.
Defined.

Lemma partition_is_complete_and_disjoint_sample :
  exists cluster_centers cluster_labels,
    partition cosine_of first_rows sample_embeddings 2
    = Ok (cluster_centers, cluster_labels)
    /\ length cluster_labels = length sample_embeddings
    /\ Forall (fun l => (0 <= l < Z.of_nat 2)%Z) cluster_labels
    /\ (forall i j n,
           In n (members cluster_labels i) ->
           In n (members cluster_labels j) -> i = j)
    /\ (forall n,
           (exists i, (i < 2)%nat /\ In n (members cluster_labels i))
           <-> (n < length sample_embeddings)%nat).
Proof.
  apply (@partition_is_complete_and_disjoint cosine_of first_rows
           sample_embeddings 2%nat).
  - lia.
  - simpl. lia.
  - reflexivity.
Defined.

Lemma partition_insufficient_data_sample :
  partition cosine_of first_rows sample_embeddings 4 = Raise InsufficientData.
Proof.
  apply (@partition_insufficient_data cosine_of first_rows
           sample_embeddings 4%nat).
  simpl. lia.
Defined.

Lemma empty_cluster_stops_the_loop_sample :
  prune euclidean cosine_of sample_embeddings sample_labels
    [sample_center; [-3 # 5; -4 # 5]] 2 (9 # 100) = Raise ValueError
  /\ forall points_to_keep,
       prune euclidean cosine_of sample_embeddings sample_labels
         [sample_center; [-3 # 5; -4 # 5]] 2 (9 # 100) <> Ok points_to_keep.
Proof.
  apply (@empty_cluster_stops_the_loop euclidean cosine_of sample_embeddings
           sample_labels [sample_center; [-3 # 5; -4 # 5]] 2%nat (9 # 100)
           1%nat).
  - reflexivity.
  - simpl. lia.
  - lia.
  - reflexivity.
Defined.

Lemma length_mismatch_aborts_sample :
  assert_lengths 3 ["the cat sat"; "stock prices fell"]%string
    (fun dataset =>
       points_to_keep <-
         prune euclidean cosine_of sample_embeddings sample_labels
           [sample_center] 1 (9 # 100) ;;
       filtered_dataset dataset points_to_keep)
  = Raise (AssertionError "The datasets do not have the same length."%string).
Proof.
  apply (@length_mismatch_aborts string (list string) 3%nat
           ["the cat sat"; "stock prices fell"]%string).
  simpl. lia.
Defined.

(** * Further properties of the script *)

(** ** Ranking *)

Section RankingFacts.

Variable cdist : vec -> vec -> Q.

(** X1: with [descending=False], [sort_by_centroid_distance] returns the
    rows of its input, each as often as it occurs there, in ascending
    order of their distance from the centroid: the nearest row first. *)
Theorem sort_by_centroid_distance_nearest_first
    (embeddings : matrix) (centroid : vec) :
  exists ranked,
    sort_by_centroid_distance cdist embeddings centroid false = Ok ranked
    /\ Permutation embeddings ranked
    /\ StronglySorted
         (fun a b => cdist a centroid <= cdist b centroid) ranked.
Proof.
  destruct (sort_by_centroid_distance_ascending cdist embeddings centroid)
    as (ranked & Hasc & _ & Hperm & Hsorted).
  exists ranked. auto.
Qed.

(** X2: the two directions of [sort_by_centroid_distance] never fail, and
    the descending ranking is the ascending ranking read backwards. *)
Theorem sort_by_centroid_distance_flag_reverses
    (embeddings : matrix) (centroid : vec) :
  exists ranked,
    sort_by_centroid_distance cdist embeddings centroid false = Ok ranked
    /\ sort_by_centroid_distance cdist embeddings centroid true
       = Ok (rev ranked)
    /\ length ranked = length embeddings.
Proof.
  destruct (sort_by_centroid_distance_ascending cdist embeddings centroid)
    as (ranked & Hasc & Hdesc & Hperm & _).
  exists ranked. repeat split; [exact Hasc | exact Hdesc |].
  symmetry. apply Permutation_length, Hperm.
Qed.

End RankingFacts.

(** ** The pruning loop *)

Lemma threshold_negative (epsilon : Q) :
  1 < epsilon -> Qle_bool 0 (1 - epsilon) = false.
Proof.
  intros H. destruct (Qle_bool 0 (1 - epsilon)) eqn:E; [|reflexivity].
  apply Qle_bool_iff in E. exfalso.
  destruct epsilon as [p q].
  unfold Qle, Qlt, Qminus, Qplus, Qopp in *. cbn [Qnum Qden] in *. lia.
Qed.

Lemma in_select {A : Type} (mask : list bool) (a : list A) (r : A) :
  In r (Np.select mask a) -> In r a.
Proof.
  revert a. induction mask as [|b mask IH]; intros [|x a]; simpl;
    try contradiction.
  destruct b; simpl; intros H.
  - destruct H as [H|H]; [left; exact H | right; apply IH, H].
  - right. apply IH, H.
Qed.

Section LoopFacts.

Variable cdist : vec -> vec -> Q.

(** The reduction of lines 99-108 on a ranked list with a first row. *)
Lemma reduce_ranked (cosine : vec -> vec -> Q) (x : vec) (X : matrix)
    (epsilon : Q) :
  (sim <- cosine_similarity cosine (x :: X) ;;
   column_max <- Np.max_axis0 (Np.triu1 sim) ;;
   M <- Np.item0 column_max ;;
   Ok (Np.bool_index (x :: X) (Qle_bool M (1 - epsilon))))
  = Ok (Np.bool_index (x :: X) (Qle_bool 0 (1 - epsilon))).
Proof.
  pose proof (scalar_M_is_zero cosine x X) as HM.
  destruct (cosine_similarity cosine (x :: X)) as [sim|e]; [|discriminate].
  simpl in *.
  destruct (Np.max_axis0 (Np.triu1 sim)) as [column_max|e]; [|discriminate].
  simpl in *. rewrite HM. reflexivity.
Qed.

Lemma prune_cluster_same (cos1 cos2 : vec -> vec -> Q)
    (embeddings : matrix) (cluster_labels : list Z) (cluster_centers : matrix)
    (epsilon : Q) (i : nat) :
  prune_cluster cdist cos1 embeddings cluster_labels cluster_centers epsilon i
  = prune_cluster cdist cos2 embeddings cluster_labels cluster_centers
      epsilon i.
Proof.
  unfold prune_cluster. cbv zeta.
  destruct (Np.mask_index embeddings (label_mask cluster_labels i))
    as [rows|]; cbn [bind]; [|reflexivity].
  destruct (row_at cluster_centers i) as [centroid|]; cbn [bind];
    [|reflexivity].
  destruct (sort_by_centroid_distance cdist rows centroid true)
    as [[|x X]|]; cbn [bind]; [reflexivity | | reflexivity].
  etransitivity; [apply (reduce_ranked cos1 x X epsilon)|].
  symmetry. apply (reduce_ranked cos2 x X epsilon).
Qed.

(** X3: the similarities never reach the decision: for all inputs, the
    loop body and the whole loop return the same value, or raise the
    same exception, whatever similarity function is used. *)
Theorem prune_ignores_similarity (cos1 cos2 : vec -> vec -> Q)
    (embeddings : matrix) (cluster_labels : list Z) (cluster_centers : matrix)
    (num_clusters : nat) (epsilon : Q) :
  (forall i,
      prune_cluster cdist cos1 embeddings cluster_labels cluster_centers
        epsilon i
      = prune_cluster cdist cos2 embeddings cluster_labels cluster_centers
          epsilon i)
  /\ prune cdist cos1 embeddings cluster_labels cluster_centers
       num_clusters epsilon
     = prune cdist cos2 embeddings cluster_labels cluster_centers
         num_clusters epsilon.
Proof.
  split; [intros i; apply prune_cluster_same|].
  unfold prune. generalize (@nil matrix) as acc.
  induction (seq 0 num_clusters) as [|i clusters IH]; intros acc; simpl.
  - reflexivity.
  - rewrite (prune_cluster_same cos1 cos2).
    destruct (prune_cluster cdist cos2 embeddings cluster_labels
                cluster_centers epsilon i); simpl; [apply IH | reflexivity].
Qed.

Variable cosine : vec -> vec -> Q.

(** X4: a cluster with members is kept whole or not at all: the loop
    body returns the ranked cluster as one block when epsilon <= 1 and
    no block when epsilon > 1. *)
Theorem cluster_kept_whole_or_not_at_all
    (embeddings : matrix) (cluster_labels : list Z) (cluster_centers : matrix)
    (epsilon : Q) (i : nat) (centroid : vec) :
  length cluster_labels = length embeddings ->
  nth_error cluster_centers i = Some centroid ->
  cluster_rows embeddings cluster_labels i <> [] ->
  exists ranked,
    sort_by_centroid_distance cdist
      (cluster_rows embeddings cluster_labels i) centroid true = Ok ranked
    /\ (epsilon <= 1 ->
        prune_cluster cdist cosine embeddings cluster_labels cluster_centers
          epsilon i = Ok [ranked])
    /\ (1 < epsilon ->
        prune_cluster cdist cosine embeddings cluster_labels cluster_centers
          epsilon i = Ok []).
Proof.
  intros Hlen Hc Hne.
  destruct (prune_cluster_members cdist cosine embeddings cluster_labels
              cluster_centers epsilon i Hlen Hc Hne)
    as (ranked & Hsort & _ & Hprune).
  exists ranked. split; [exact Hsort|]. split; intros Heps.
  - rewrite Hprune, (threshold_nonneg Heps). reflexivity.
  - rewrite Hprune, (threshold_negative Heps). reflexivity.
Qed.

Lemma prune_loop_keeps_nothing
    (embeddings : matrix) (cluster_labels : list Z) (cluster_centers : matrix)
    (epsilon : Q) (clusters : list nat) :
  1 < epsilon ->
  length cluster_labels = length embeddings ->
  Forall (fun i => (i < length cluster_centers)%nat
                   /\ cluster_rows embeddings cluster_labels i <> [])
         clusters ->
  forall acc,
    prune_loop cdist cosine embeddings cluster_labels cluster_centers epsilon
      clusters acc = Ok acc.
Proof.
  intros Heps Hlen. induction clusters as [|i clusters IH]; intros Hall acc.
  - reflexivity.
  - inversion Hall as [|? ? [Hi Hne] Hrest]; subst.
    destruct (nth_error cluster_centers i) as [centroid|] eqn:Hc;
      [|apply nth_error_None in Hc; lia].
    destruct (prune_cluster_members cdist cosine embeddings cluster_labels
                cluster_centers epsilon i Hlen Hc Hne)
      as (ranked & _ & _ & Hprune).
    rewrite (threshold_negative Heps) in Hprune.
    simpl. rewrite Hprune. simpl. rewrite app_nil_r. apply IH, Hrest.
Qed.

(** X5: with epsilon above 1 and no empty cluster, the loop keeps no row
    at all and the projection returns no document. *)
Theorem nothing_survives_above_one {D : Type} (dataset : list D)
    (embeddings : matrix) (cluster_labels : list Z) (cluster_centers : matrix)
    (num_clusters : nat) (epsilon : Q) :
  1 < epsilon ->
  length cluster_labels = length embeddings ->
  (num_clusters <= length cluster_centers)%nat ->
  (forall i, (i < num_clusters)%nat ->
             cluster_rows embeddings cluster_labels i <> []) ->
  prune cdist cosine embeddings cluster_labels cluster_centers
    num_clusters epsilon = Ok []
  /\ deduplicate cdist cosine dataset embeddings cluster_labels
       cluster_centers num_clusters epsilon = Ok [].
Proof.
  intros Heps Hlen HK Hne.
  assert (Hprune : prune cdist cosine embeddings cluster_labels
                     cluster_centers num_clusters epsilon = Ok []).
  { unfold prune. apply prune_loop_keeps_nothing; try assumption.
    apply Forall_forall. intros i Hi. apply in_seq in Hi.
    split; [lia | apply Hne; lia]. }
  split; [exact Hprune|].
  unfold deduplicate. rewrite Hprune. simpl.
  unfold filtered_dataset, filter_with_indices. simpl.
  induction (combine dataset (seq 0 (length dataset))) as [|p l IH].
  - reflexivity.
  - simpl. simpl in IH. exact IH.
Qed.

Lemma prune_loop_blocks
    (embeddings : matrix) (cluster_labels : list Z) (cluster_centers : matrix)
    (epsilon : Q) (clusters : list nat) :
  epsilon <= 1 ->
  length cluster_labels = length embeddings ->
  Forall (fun i => (i < length cluster_centers)%nat
                   /\ cluster_rows embeddings cluster_labels i <> [])
         clusters ->
  forall acc,
  exists blocks,
    prune_loop cdist cosine embeddings cluster_labels cluster_centers epsilon
      clusters acc = Ok (acc ++ blocks)
    /\ Forall2
         (fun i block =>
            exists centroid,
              nth_error cluster_centers i = Some centroid
              /\ sort_by_centroid_distance cdist
                   (cluster_rows embeddings cluster_labels i) centroid true
                 = Ok block)
         clusters blocks.
Proof.
  intros Heps Hlen. induction clusters as [|i clusters IH]; intros Hall acc.
  - exists []. simpl. rewrite app_nil_r. split; [reflexivity | constructor].
  - inversion Hall as [|? ? [Hi Hne] Hrest]; subst.
    destruct (nth_error cluster_centers i) as [centroid|] eqn:Hc;
      [|apply nth_error_None in Hc; lia].
    destruct (prune_cluster_members cdist cosine embeddings cluster_labels
                cluster_centers epsilon i Hlen Hc Hne)
      as (ranked & Hsort & _ & Hprune).
    rewrite (threshold_nonneg Heps) in Hprune.
    destruct (IH Hrest (acc ++ [ranked])) as (blocks & Hloop & Hblocks).
    exists (ranked :: blocks). simpl. rewrite Hprune. simpl.
    rewrite Hloop, <- app_assoc. split; [reflexivity|].
    constructor; [|exact Hblocks].
    exists centroid. split; [exact Hc | exact Hsort].
Qed.

(** X6: with epsilon <= 1 and no empty cluster, [points_to_keep] holds
    one block per cluster, in the order of the cluster ids, and the
    block of cluster i is the ranking of its rows, farthest first. *)
Theorem points_to_keep_one_block_per_cluster
    (embeddings : matrix) (cluster_labels : list Z) (cluster_centers : matrix)
    (num_clusters : nat) (epsilon : Q) :
  epsilon <= 1 ->
  length cluster_labels = length embeddings ->
  (num_clusters <= length cluster_centers)%nat ->
  (forall i, (i < num_clusters)%nat ->
             cluster_rows embeddings cluster_labels i <> []) ->
  exists points_to_keep,
    prune cdist cosine embeddings cluster_labels cluster_centers
      num_clusters epsilon = Ok points_to_keep
    /\ length points_to_keep = num_clusters
    /\ Forall2
         (fun i block =>
            exists centroid,
              nth_error cluster_centers i = Some centroid
              /\ sort_by_centroid_distance cdist
                   (cluster_rows embeddings cluster_labels i) centroid true
                 = Ok block)
         (seq 0 num_clusters) points_to_keep.
Proof.
  intros Heps Hlen HK Hne.
  assert (Hall : Forall
             (fun i => (i < length cluster_centers)%nat
                       /\ cluster_rows embeddings cluster_labels i <> [])
             (seq 0 num_clusters)).
  { apply Forall_forall. intros i Hi. apply in_seq in Hi.
    split; [lia | apply Hne; lia]. }
  destruct (@prune_loop_blocks embeddings cluster_labels cluster_centers
              epsilon (seq 0 num_clusters) Heps Hlen Hall [])
    as (blocks & Hloop & Hblocks).
  exists blocks. split; [exact Hloop|]. split; [|exact Hblocks].
  apply Forall2_length in Hblocks. rewrite length_seq in Hblocks. lia.
Qed.

Lemma prune_cluster_blocks
    (embeddings : matrix) (cluster_labels : list Z) (cluster_centers : matrix)
    (epsilon : Q) (i : nat) (kept : list matrix) :
  prune_cluster cdist cosine embeddings cluster_labels cluster_centers
    epsilon i = Ok kept ->
  Forall (fun block =>
            Permutation (cluster_rows embeddings cluster_labels i) block)
         kept.
Proof.
  unfold prune_cluster, Np.mask_index.
  destruct (length (label_mask cluster_labels i) =? length embeddings);
    simpl; [|discriminate].
  fold (cluster_rows embeddings cluster_labels i).
  destruct (row_at cluster_centers i) as [centroid|]; simpl; [|discriminate].
  destruct (sort_by_centroid_distance_ascending cdist
              (cluster_rows embeddings cluster_labels i) centroid)
    as (ascending & _ & -> & Hperm & _). simpl.
  destruct (cosine_similarity cosine (rev ascending)) as [sim|]; simpl;
    [|discriminate].
  destruct (Np.max_axis0 (Np.triu1 sim)) as [column_max|]; simpl;
    [|discriminate].
  destruct (Np.item0 column_max) as [M|]; simpl; [|discriminate].
  intros H. injection H as <-.
  destruct (Qle_bool M (1 - epsilon)); simpl; constructor; [|constructor].
  eapply perm_trans; [exact Hperm | apply Permutation_rev].
Qed.

(** X7: whenever the loop returns, every block of [points_to_keep] holds
    the rows of one cluster, each as often as the cluster has it; so the
    loop keeps nothing but rows of [embeddings]. *)
Theorem kept_blocks_are_clusters
    (embeddings : matrix) (cluster_labels : list Z) (cluster_centers : matrix)
    (num_clusters : nat) (epsilon : Q) (points_to_keep : list matrix) :
  prune cdist cosine embeddings cluster_labels cluster_centers
    num_clusters epsilon = Ok points_to_keep ->
  Forall (fun block =>
            exists i, (i < num_clusters)%nat
                      /\ Permutation
                           (cluster_rows embeddings cluster_labels i) block)
         points_to_keep
  /\ forall row, In row (concat points_to_keep) -> In row embeddings.
Proof.
  intros Hprune.
  assert (Hblocks : Forall
            (fun block =>
               exists i, (i < num_clusters)%nat
                         /\ Permutation
                              (cluster_rows embeddings cluster_labels i) block)
            points_to_keep).
  { unfold prune in Hprune. revert Hprune.
    assert (Hacc : Forall
              (fun block =>
                 exists i, (i < num_clusters)%nat
                           /\ Permutation
                                (cluster_rows embeddings cluster_labels i)
                                block)
              (@nil matrix)) by constructor.
    assert (Hin : forall i, In i (seq 0 num_clusters) -> (i < num_clusters)%nat)
      by (intros i Hi; apply in_seq in Hi; lia).
    revert Hacc Hin. generalize (@nil matrix) as acc.
    induction (seq 0 num_clusters) as [|i clusters IH];
      intros acc Hacc Hin; simpl.
    - intros H. injection H as <-. exact Hacc.
    - destruct (prune_cluster cdist cosine embeddings cluster_labels
                  cluster_centers epsilon i) as [kept|] eqn:E; simpl;
        [|discriminate].
      apply IH.
      + apply Forall_app. split; [exact Hacc|].
        eapply Forall_impl; [|apply (prune_cluster_blocks _ _ _ _ _ E)].
        intros block Hb. exists i. split; [apply Hin; left; reflexivity|].
        exact Hb.
      + intros j Hj. apply Hin. right. exact Hj. }
  split; [exact Hblocks|].
  intros row Hrow. apply in_concat in Hrow as (block & Hblock & Hin).
  rewrite Forall_forall in Hblocks.
  destruct (Hblocks block Hblock) as (i & _ & Hperm).
  apply Permutation_sym in Hperm.
  apply (Permutation_in _ Hperm) in Hin.
  apply in_select in Hin. exact Hin.
Qed.

End LoopFacts.

(** ** The projection *)

Lemma filter_indices_bounded {D : Type} (g : D * nat -> bool) (k : nat) :
  (forall x idx, g (x, idx) = true -> (idx < k)%nat) ->
  forall (dataset : list D) (s : nat),
    Subsequence
      (map fst (filter g (combine dataset (seq s (length dataset)))))
      (firstn (k - s) dataset).
Proof.
  intros Hg. induction dataset as [|x dataset IH]; intros s; simpl.
  - rewrite firstn_nil. constructor.
  - specialize (IH (S s)).
    destruct (g (x, s)) eqn:E; simpl.
    + apply Hg in E.
      replace (k - s)%nat with (S (k - S s)) by lia. simpl.
      apply Subsequence_keep, IH.
    + destruct (k - s)%nat as [|m] eqn:Ek; simpl.
      * replace (k - S s)%nat with 0%nat in IH by lia.
        rewrite firstn_O in IH. exact IH.
      * replace (k - S s)%nat with m in IH by lia.
        apply Subsequence_skip, IH.
Qed.

Lemma filter_with_indices_bounded {D : Type} (f : D -> nat -> bool)
    (k : nat) (dataset : list D) :
  (forall x idx, f x idx = true -> (idx < k)%nat) ->
  Subsequence (filter_with_indices f dataset) (firstn k dataset).
Proof.
  intros Hf. unfold filter_with_indices.
  rewrite <- (Nat.sub_0_r k) at 1.
  apply (filter_indices_bounded (fun p => f (fst p) (snd p))).
  intros x idx H. exact (Hf x idx H).
Qed.

Lemma array_blocks (blocks arr : list matrix) :
  Np.array blocks = Ok arr -> arr = blocks.
Proof.
  unfold Np.array. destruct blocks as [|b bs].
  - intros H. injection H as <-. reflexivity.
  - destruct (forallb (Np.same_shape b) bs); [|discriminate].
    intros H. injection H as <-. reflexivity.
Qed.

Lemma contains_scalar (idx : nat) (arr : list matrix) :
  Np.contains idx arr = true ->
  exists block row y,
    In block arr /\ In row block /\ In y row
    /\ y == inject_Z (Z.of_nat idx).
Proof.
  unfold Np.contains. intros H.
  apply existsb_exists in H as (block & Hblock & H).
  apply existsb_exists in H as (row & Hrow & H).
  apply existsb_exists in H as (y & Hy & H).
  apply Qeq_bool_iff in H.
  exists block, row, y. auto.
Qed.

Lemma filter_indices_subsequence {D : Type} (g : D * nat -> bool) :
  forall (dataset : list D) (s : nat),
    Subsequence
      (map fst (filter g (combine dataset (seq s (length dataset)))))
      dataset.
Proof.
  induction dataset as [|x dataset IH]; intros s; simpl.
  - constructor.
  - destruct (g (x, s)); simpl.
    + apply Subsequence_keep, IH.
    + apply Subsequence_skip, IH.
Qed.

(** X8: whenever the projection returns, its result is the dataset with
    some documents left out, the order of the others kept. *)
Theorem filtered_dataset_is_subsequence {D : Type} (dataset : list D)
    (points_to_keep : list matrix) (kept : list D) :
  filtered_dataset dataset points_to_keep = Ok kept ->
  Subsequence kept dataset.
Proof.
  unfold filtered_dataset.
  destruct (Np.array points_to_keep) as [arr|]; simpl; [|discriminate].
  intros H. injection H as <-.
  unfold filter_with_indices. apply filter_indices_subsequence.
Qed.

Lemma index_of_unit_coordinate (y : Q) (idx : nat) :
  -1 <= y <= 1 -> y == inject_Z (Z.of_nat idx) -> (idx < 2)%nat.
Proof.
  intros [_ Hy] Heq. rewrite Heq in Hy.
  change 1 with (inject_Z 1) in Hy. rewrite <- Zle_Qle in Hy. lia.
Qed.

Section ProjectionFacts.

Variable cdist : vec -> vec -> Q.
Variable cosine : vec -> vec -> Q.

Lemma prune_cluster_rows
    (embeddings : matrix) (cluster_labels : list Z) (cluster_centers : matrix)
    (epsilon : Q) (i : nat) (kept : list matrix) :
  prune_cluster cdist cosine embeddings cluster_labels cluster_centers
    epsilon i = Ok kept ->
  forall row, In row (concat kept) -> In row embeddings.
Proof.
  intros H row Hrow.
  apply in_concat in Hrow as (block & Hblock & Hin).
  pose proof (prune_cluster_blocks _ _ _ _ _ _ _ H) as Hb.
  rewrite Forall_forall in Hb.
  pose proof (Hb block Hblock) as Hperm.
  apply Permutation_sym in Hperm.
  apply (Permutation_in _ Hperm) in Hin.
  apply in_select in Hin. exact Hin.
Qed.

Lemma prune_loop_rows
    (embeddings : matrix) (cluster_labels : list Z) (cluster_centers : matrix)
    (epsilon : Q) (clusters : list nat) :
  forall acc points_to_keep,
    (forall row, In row (concat acc) -> In row embeddings) ->
    prune_loop cdist cosine embeddings cluster_labels cluster_centers epsilon
      clusters acc = Ok points_to_keep ->
    forall row, In row (concat points_to_keep) -> In row embeddings.
Proof.
  induction clusters as [|i clusters IH]; intros acc points_to_keep Hacc;
    simpl.
  - intros H. injection H as <-. exact Hacc.
  - destruct (prune_cluster cdist cosine embeddings cluster_labels
                cluster_centers epsilon i) as [kept|] eqn:E; simpl;
      [|discriminate].
    apply IH. intros row Hrow. rewrite concat_app in Hrow.
    apply in_app_or in Hrow as [Hrow|Hrow].
    + apply Hacc, Hrow.
    + apply (prune_cluster_rows _ _ _ _ _ E), Hrow.
Qed.

(** X9: when every coordinate of the embeddings lies between -1 and 1,
    as it does for normalised rows, the test [idx in points_to_keep] can
    hold for the positions 0 and 1 only: whatever the clusters are, the
    script returns a subsequence of the first two documents. *)
Theorem only_the_first_two_documents_survive {D : Type} (dataset : list D)
    (embeddings : matrix) (cluster_labels : list Z) (cluster_centers : matrix)
    (num_clusters : nat) (epsilon : Q) (kept : list D) :
  Forall (Forall (fun y => -1 <= y <= 1)) embeddings ->
  deduplicate cdist cosine dataset embeddings cluster_labels cluster_centers
    num_clusters epsilon = Ok kept ->
  Subsequence kept (firstn 2 dataset)
  /\ (length kept <= 2)%nat.
Proof.
  intros Hunit. unfold deduplicate.
  destruct (prune cdist cosine embeddings cluster_labels cluster_centers
              num_clusters epsilon) as [points_to_keep|] eqn:Hprune; simpl;
    [|discriminate].
  unfold filtered_dataset.
  destruct (Np.array points_to_keep) as [arr|] eqn:Harr; simpl;
    [|discriminate].
  apply array_blocks in Harr. subst arr.
  intros H. injection H as <-.
  assert (Hsub : Subsequence
                   (filter_with_indices
                      (fun (_ : D) idx => Np.contains idx points_to_keep)
                      dataset)
                   (firstn 2 dataset)).
  { apply filter_with_indices_bounded. intros _ idx Hidx.
    apply contains_scalar in Hidx as (block & row & y & Hb & Hr & Hy & Heq).
    assert (Hrow : In row embeddings).
    { unfold prune in Hprune.
      apply (prune_loop_rows _ _ _ _ _ [] (fun r (F : In r []) => match F with end)
               Hprune).
      apply in_concat. exists block. auto. }
    rewrite Forall_forall in Hunit. pose proof (Hunit row Hrow) as Hcoords.
    rewrite Forall_forall in Hcoords.
    apply (@index_of_unit_coordinate y idx (Hcoords y Hy) Heq). }
  split; [exact Hsub|].
  assert (Hlen : forall (l1 l2 : list D),
             Subsequence l1 l2 -> (length l1 <= length l2)%nat).
  { induction 1; simpl; lia. }
  apply Hlen in Hsub. rewrite length_firstn in Hsub. lia.
Qed.

End ProjectionFacts.

(** ** The embedding step *)

Lemma nth_error_models (load : nat -> string -> vec) (num_gpus id : nat) :
  (id < num_gpus)%nat ->
  nth_error (models load num_gpus) id = Some (load id).
Proof.
  intros H. unfold models. rewrite nth_error_map.
  rewrite (nth_error_nth' (seq 0 num_gpus) 0%nat)
    by (rewrite length_seq; exact H).
  rewrite seq_nth by exact H. reflexivity.
Qed.

Lemma encode_pairs_round_robin (load : nat -> string -> vec)
    (num_gpus : nat) (texts : list string) :
  (0 < num_gpus)%nat ->
  forall s n,
    encode_pairs (models load num_gpus)
      (combine texts (map (fun j => Nat.modulo j num_gpus) (seq s n)))
    = inr (map (fun p => load (Nat.modulo (snd p) num_gpus) (fst p))
             (combine texts (seq s n))).
Proof.
  intros Hg. induction texts as [|ex texts IH]; intros s n; simpl.
  - reflexivity.
  - destruct n as [|n]; simpl; [reflexivity|].
    rewrite nth_error_models by (apply Nat.mod_upper_bound; lia).
    rewrite IH. reflexivity.
Qed.

Lemma embed_text_value (load : nat -> string -> vec) (num_gpus : nat)
    (examples : batch) (texts : list string) :
  (0 < num_gpus)%nat ->
  lookup "text" examples = Some texts ->
  embed_text load num_gpus examples
  = inr (map (fun p => load (Nat.modulo (snd p) num_gpus) (fst p))
           (combine texts (seq 0 (length examples)))).
Proof.
  intros Hg Htext. unfold embed_text, fmod_range.
  destruct num_gpus as [|g]; [lia|].
  destruct (length examples) as [|n] eqn:En.
  - rewrite Htext. destruct texts; reflexivity.
  - rewrite Htext. apply encode_pairs_round_robin. lia.
Qed.

(** X10: with at least one device and a ["text"] column, [embed_text]
    returns; it pairs the texts with the positions 0, 1, .. of the
    columns of the batch, so it embeds as many texts as the batch has
    columns (or all of them, if they are fewer), the j-th on device
    j mod num_gpus, and never indexes [models] out of range. *)
Theorem embed_text_embeds_one_text_per_column
    (load : nat -> string -> vec) (num_gpus : nat) (examples : batch)
    (texts : list string) :
  (0 < num_gpus)%nat ->
  lookup "text" examples = Some texts ->
  exists embeddings,
    embed_text load num_gpus examples = inr embeddings
    /\ embeddings
       = map (fun p => load (Nat.modulo (snd p) num_gpus) (fst p))
           (combine texts (seq 0 (length examples)))
    /\ length embeddings = Nat.min (length texts) (length examples).
Proof.
  intros Hg Htext. eexists. split; [apply (embed_text_value _ _ Hg Htext)|].
  split; [reflexivity|].
  rewrite length_map, length_combine, length_seq. reflexivity.
Qed.

(** X11: on a batch whose only column is ["text"], as the corpus has it,
    [embed_text] embeds the first text only, on device 0, however many
    texts the batch holds. *)
Theorem embed_text_single_column (load : nat -> string -> vec)
    (num_gpus : nat) (ex : string) (texts : list string) :
  (0 < num_gpus)%nat ->
  embed_text load num_gpus [("text"%string, ex :: texts)]
  = inr [load 0%nat ex].
Proof.
  intros Hg.
  rewrite (@embed_text_value load num_gpus
             [("text"%string, ex :: texts)] (ex :: texts) Hg eq_refl).
  simpl. rewrite Nat.Div0.mod_0_l. destruct texts; reflexivity.
Qed.


(** X13: the comprehension of line 55 runs over the entries of every
    row's embedding: for N rows of dimension d it yields a flat list of
    N * d numbers, the coordinates in row order, not N vectors. *)
Theorem collect_embeddings_flattens (dataset : list (string * vec))
    (d : nat) :
  Forall (fun example => length (snd example) = d) dataset ->
  collect_embeddings dataset = concat (map snd dataset)
  /\ length (collect_embeddings dataset) = (length dataset * d)%nat.
Proof.
  intros H. unfold collect_embeddings. split.
  - apply flat_map_concat_map.
  - induction H as [|example dataset Hd _ IH]; simpl.
    + reflexivity.
    + rewrite length_app, Hd, IH. reflexivity.
Qed.

(** ** The per-column maximum before it is indexed *)

Lemma max_rows_nth (acc : vec) :
  forall (row : vec) (j : nat),
    (j < length acc)%nat -> (j < length row)%nat ->
    nth j (Np.max_rows acc row) 0 = Np.qmax (nth j acc 0) (nth j row 0)
    /\ (j < length (Np.max_rows acc row))%nat.
Proof.
  induction acc as [|x acc IH]; intros [|y row] j Ha Hr; simpl in *;
    try lia.
  destruct j as [|j].
  - split; [reflexivity | lia].
  - destruct (IH row j) as [H1 H2]; try lia. split; [exact H1 | lia].
Qed.

Lemma fold_max_rows_nth (m : matrix) :
  forall (acc : vec) (j : nat),
    (j < length acc)%nat ->
    Forall (fun row => (j < length row)%nat) m ->
    nth j (fold_left Np.max_rows m acc) 0
    = fold_left Np.qmax (map (fun row => nth j row 0) m) (nth j acc 0)
    /\ (j < length (fold_left Np.max_rows m acc))%nat.
Proof.
  induction m as [|row m IH]; intros acc j Ha Hm; simpl.
  - split; [reflexivity | exact Ha].
  - inversion Hm as [|? ? Hrow Hrest]; subst.
    destruct (max_rows_nth acc row Ha Hrow) as [H1 H2].
    destruct (IH (Np.max_rows acc row) j H2 Hrest) as [H3 H4].
    rewrite H3, H1. split; [reflexivity | exact H4].
Qed.

Lemma triu_row_nth (row : vec) :
  forall (r c j : nat),
    (j < length row)%nat ->
    nth j (Np.triu_row r c row) 0
    = (if r <? c + j then nth j row 0 else 0).
Proof.
  induction row as [|x row IH]; intros r c j Hj; simpl in *; [lia|].
  destruct j as [|j].
  - rewrite Nat.add_0_r. reflexivity.
  - rewrite (IH r (S c) j) by lia.
    rewrite Nat.add_succ_r. reflexivity.
Qed.

Lemma triu_row_length (row : vec) (r c : nat) :
  length (Np.triu_row r c row) = length row.
Proof.
  revert c. induction row as [|x row IH]; intros c; simpl.
  - reflexivity.
  - rewrite IH. reflexivity.
Qed.

Lemma fold_qmax_zeros {A : Type} (zeros : list A) (m : Q) :
  fold_left Np.qmax (map (fun _ => 0) zeros) (Np.qmax m 0) = Np.qmax m 0.
Proof.
  induction zeros as [|z zeros IH]; simpl; [reflexivity|].
  replace (Np.qmax (Np.qmax m 0) 0) with (Np.qmax m 0); [exact IH|].
  unfold Np.qmax. destruct (Qle_bool m 0) eqn:E.
  - reflexivity.
  - rewrite E. reflexivity.
Qed.

Section ColumnFacts.

Variable cosine : vec -> vec -> Q.

Lemma triu_sim_column (X : matrix) (j : nat) (v : vec) :
  nth_error X j = Some v ->
  forall (Y : matrix) (s : nat),
    map (fun row => nth j row 0)
      (Np.triu_from s (map (fun x => map (fun y => cosine x y) X) Y))
    = map (fun p => if fst p <? j then cosine (snd p) v else 0)
        (combine (seq s (length Y)) Y)
    /\ Forall (fun row => (j < length row)%nat)
         (Np.triu_from s (map (fun x => map (fun y => cosine x y) X) Y)).
Proof.
  intros Hv.
  assert (Hj : (j < length X)%nat)
    by (apply nth_error_Some; congruence).
  induction Y as [|x Y IH]; intros s; simpl.
  - split; [reflexivity | constructor].
  - destruct (IH (S s)) as [H1 H2]. split.
    + rewrite H1. f_equal.
      rewrite triu_row_nth by (rewrite length_map; exact Hj). simpl.
      destruct (s <? j); [|reflexivity].
      apply nth_error_nth. rewrite nth_error_map, Hv. reflexivity.
    + constructor; [|exact H2].
      rewrite triu_row_length, length_map. exact Hj.
Qed.

Lemma column_split (v : vec) (j : nat) :
  forall (Y : matrix) (s : nat),
    map (fun p => if fst p <? j then cosine (snd p) v else 0)
      (combine (seq s (length Y)) Y)
    = map (fun u => cosine u v) (firstn (j - s) Y)
      ++ map (fun _ => 0) (skipn (j - s) Y).
Proof.
  induction Y as [|x Y IH]; intros s; simpl.
  - rewrite firstn_nil, skipn_nil. reflexivity.
  - rewrite (IH (S s)). destruct (Nat.ltb_spec s j) as [Hlt|Hge].
    + replace (j - s)%nat with (S (j - S s)) by lia. reflexivity.
    + replace (j - s)%nat with 0%nat by lia.
      replace (j - S s)%nat with 0%nat by lia. reflexivity.
Qed.

(** X14: before line 105 takes its element 0, the per-column maximum of
    the upper triangle is the quantity of the specification up to the
    zeros of [np.triu]: for every ranked member j >= 1, entry j is the
    larger of 0 and the largest similarity between member j and the
    members ranked before it. *)
Theorem column_max_entry (X : matrix) (j : nat) (v : vec) :
  (0 < j)%nat ->
  nth_error X j = Some v ->
  exists sim column_max m,
    cosine_similarity cosine X = Ok sim
    /\ Np.max_axis0 (Np.triu1 sim) = Ok column_max
    /\ spec_M cosine (firstn j X) v = Some m
    /\ nth_error column_max j = Some (Np.qmax m 0).
Proof.
  intros Hpos Hv.
  destruct (triu_sim_column X j Hv X 0) as [Hcol Hlen].
  rewrite column_split, Nat.sub_0_r in Hcol.
  assert (Hskip : exists rest, skipn j X = v :: rest).
  { apply nth_error_split in Hv as (l1 & l2 & HX & Hl1).
    exists l2. rewrite HX, <- Hl1.
    rewrite skipn_app, skipn_all, Nat.sub_diag. reflexivity. }
  destruct Hskip as [rest Hskip]. rewrite Hskip in Hcol.
  destruct X as [|x0 X']; [destruct j; discriminate|].
  destruct j as [|j']; [lia|].
  exists (map (fun x => map (fun y => cosine x y) (x0 :: X')) (x0 :: X')).
  unfold Np.triu1, Np.max_axis0.
  destruct (Np.triu_from 0
              (map (fun x => map (fun y => cosine x y) (x0 :: X'))
                 (x0 :: X'))) as [|T0 Trest]; [discriminate|].
  inversion Hlen as [|? ? HT0 HTrest]; subst.
  rewrite firstn_cons in Hcol. cbn [map app] in Hcol.
  injection Hcol as Hhead Htail.
  destruct (@fold_max_rows_nth Trest T0 (S j') HT0 HTrest) as [Hnth Hbound].
  exists (fold_left Np.max_rows Trest T0).
  exists (fold_left Np.qmax
            (map (fun u => cosine u v) (firstn j' X')) (cosine x0 v)).
  split; [reflexivity|]. split; [reflexivity|]. split; [reflexivity|].
  rewrite (nth_error_nth' _ 0 Hbound). f_equal.
  rewrite Hnth, Htail, Hhead.
  rewrite fold_left_app. cbn [map fold_left]. apply fold_qmax_zeros.
Qed.

End ColumnFacts.

(** ** The members of a cluster *)

Lemma nonzero_from_sorted (mask : list bool) :
  forall s, StronglySorted lt (Np.nonzero_from s mask).
Proof.
  induction mask as [|b mask IH]; intros s; simpl.
  - constructor.
  - destruct b; [|apply IH].
    constructor; [apply IH|].
    apply Forall_forall. intros n Hn.
    apply in_nonzero_from in Hn. lia.
Qed.

Lemma select_nonzero {A : Type} (d : A) (mask : list bool) :
  forall (a : list A) (s : nat),
    length mask = length a ->
    Np.select mask a
    = map (fun n => nth (n - s) a d) (Np.nonzero_from s mask).
Proof.
  induction mask as [|b mask IH]; intros [|x a] s Hlen;
    try discriminate; [reflexivity|].
  injection Hlen as Hlen.
  assert (Htail : map (fun n => nth (n - s) (x :: a) d)
                    (Np.nonzero_from (S s) mask)
                  = map (fun n => nth (n - S s) a d)
                      (Np.nonzero_from (S s) mask)).
  { apply map_ext_in. intros n Hn. apply in_nonzero_from in Hn.
    replace (n - s)%nat with (S (n - S s)) by lia. reflexivity. }
  cbn [Np.select Np.nonzero_from]. destruct b; cbn [map].
  - rewrite Nat.sub_diag, Htail, <- (IH a (S s) Hlen). reflexivity.
  - rewrite Htail, <- (IH a (S s) Hlen). reflexivity.
Qed.

(** X15: line 91 selects the rows of the vectors labelled i and nothing
    else: the rows of cluster i are the rows of [embeddings] at the
    positions whose label is i, in increasing order of position. *)
Theorem cluster_rows_are_member_rows
    (embeddings : matrix) (cluster_labels : list Z) (i : nat) :
  length cluster_labels = length embeddings ->
  Np.mask_index embeddings (label_mask cluster_labels i)
  = Ok (map (fun n => nth n embeddings []) (members cluster_labels i))
  /\ StronglySorted lt (members cluster_labels i)
  /\ (forall n, In n (members cluster_labels i)
                <-> nth_error cluster_labels n = Some (Z.of_nat i)).
Proof.
  intros Hlen. split; [|split].
  - rewrite (mask_index_rows _ _ i Hlen). f_equal.
    unfold cluster_rows, members, Np.flatnonzero.
    rewrite (select_nonzero ([] : vec) (label_mask cluster_labels i)
               embeddings 0)
      by (unfold label_mask; rewrite length_map; exact Hlen).
    apply map_ext. intros n. rewrite Nat.sub_0_r. reflexivity.
  - apply nonzero_from_sorted.
  - intros n. apply in_members.
Qed.

(** ** Bounds of the loop *)

Section BoundFacts.

Variable cdist : vec -> vec -> Q.
Variable cosine : vec -> vec -> Q.

Lemma prune_loop_app
    (embeddings : matrix) (cluster_labels : list Z) (cluster_centers : matrix)
    (epsilon : Q) (l1 l2 : list nat) :
  forall acc,
    prune_loop cdist cosine embeddings cluster_labels cluster_centers epsilon
      (l1 ++ l2) acc
    = (acc' <- prune_loop cdist cosine embeddings cluster_labels
                 cluster_centers epsilon l1 acc ;;
       prune_loop cdist cosine embeddings cluster_labels cluster_centers
         epsilon l2 acc').
Proof.
  induction l1 as [|i l1 IH]; intros acc; simpl.
  - reflexivity.
  - destruct (prune_cluster cdist cosine embeddings cluster_labels
                cluster_centers epsilon i); simpl; [apply IH | reflexivity].
Qed.

Lemma prune_loop_returns
    (embeddings : matrix) (cluster_labels : list Z) (cluster_centers : matrix)
    (epsilon : Q) (clusters : list nat) :
  length cluster_labels = length embeddings ->
  Forall (fun i => (i < length cluster_centers)%nat
                   /\ cluster_rows embeddings cluster_labels i <> [])
         clusters ->
  forall acc,
  exists points_to_keep,
    prune_loop cdist cosine embeddings cluster_labels cluster_centers epsilon
      clusters acc = Ok points_to_keep.
Proof.
  intros Hlen. induction clusters as [|i clusters IH]; intros Hall acc.
  - eexists. reflexivity.
  - inversion Hall as [|? ? [Hi Hne] Hrest]; subst.
    destruct (nth_error cluster_centers i) as [centroid|] eqn:Hc;
      [|apply nth_error_None in Hc; lia].
    destruct (prune_cluster_members cdist cosine embeddings cluster_labels
                cluster_centers epsilon i Hlen Hc Hne)
      as (ranked & _ & _ & Hprune).
    simpl. rewrite Hprune. simpl. apply IH, Hrest.
Qed.

(** X16: when the loop runs over more clusters than [cluster_centers]
    has rows, and the clusters that do have a centroid have members, it
    stops with [IndexError] at the first cluster without a centroid and
    returns no keep-set. *)
Theorem more_clusters_than_centroids
    (embeddings : matrix) (cluster_labels : list Z) (cluster_centers : matrix)
    (num_clusters : nat) (epsilon : Q) :
  length cluster_labels = length embeddings ->
  (length cluster_centers < num_clusters)%nat ->
  (forall i, (i < length cluster_centers)%nat ->
             cluster_rows embeddings cluster_labels i <> []) ->
  prune cdist cosine embeddings cluster_labels cluster_centers
    num_clusters epsilon = Raise IndexError.
Proof.
  intros Hlen HK Hne. unfold prune.
  replace num_clusters
    with (length cluster_centers + S (num_clusters - S (length cluster_centers)))%nat
    by lia.
  rewrite seq_app, prune_loop_app.
  assert (Hall : Forall
             (fun i => (i < length cluster_centers)%nat
                       /\ cluster_rows embeddings cluster_labels i <> [])
             (seq 0 (length cluster_centers))).
  { apply Forall_forall. intros i Hi. apply in_seq in Hi.
    split; [lia | apply Hne; lia]. }
  destruct (@prune_loop_returns embeddings cluster_labels cluster_centers
              epsilon _ Hlen Hall []) as [acc ->].
  simpl. unfold prune_cluster.
  rewrite (mask_index_rows _ _ _ Hlen). simpl.
  unfold row_at.
  destruct (nth_error cluster_centers (length cluster_centers)) eqn:E.
  - assert (nth_error cluster_centers (length cluster_centers) <> None)
      by congruence.
    apply nth_error_Some in H. lia.
  - reflexivity.
Qed.

End BoundFacts.

(** ** The further properties at the sample data *)

Lemma cluster_kept_whole_or_not_at_all_sample :
  exists ranked,
    sort_by_centroid_distance euclidean
      (cluster_rows sample_embeddings sample_labels 0) sample_center true
    = Ok ranked
    /\ (9 # 100 <= 1 ->
        prune_cluster euclidean cosine_of sample_embeddings sample_labels
          [sample_center] (9 # 100) 0 = Ok [ranked])
    /\ (1 < 9 # 100 ->
        prune_cluster euclidean cosine_of sample_embeddings sample_labels
          [sample_center] (9 # 100) 0 = Ok []).
Proof.
  apply (@cluster_kept_whole_or_not_at_all euclidean cosine_of
           sample_embeddings sample_labels [sample_center] (9 # 100) 0%nat
           sample_center).
  - reflexivity.
  - reflexivity.
  - vm_compute. discriminate.
Defined.

Lemma nothing_survives_above_one_sample :
  prune euclidean cosine_of sample_embeddings sample_labels
    [sample_center] 1 2 = Ok []
  /\ deduplicate euclidean cosine_of sample_texts sample_embeddings
       sample_labels [sample_center] 1 2 = Ok [].
Proof.
  apply (@nothing_survives_above_one euclidean cosine_of string sample_texts
           sample_embeddings sample_labels [sample_center] 1%nat 2).
  - reflexivity.
  - reflexivity.
  - simpl. lia.
  - intros i Hi. assert (i = 0%nat) as -> by lia. vm_compute. discriminate.
Defined.

Lemma points_to_keep_one_block_per_cluster_sample :
  exists points_to_keep,
    prune euclidean cosine_of sample_embeddings sample_labels
      [sample_center] 1 (9 # 100) = Ok points_to_keep
    /\ length points_to_keep = 1%nat
    /\ Forall2
         (fun i block =>
            exists centroid,
              nth_error [sample_center] i = Some centroid
              /\ sort_by_centroid_distance euclidean
                   (cluster_rows sample_embeddings sample_labels i)
                   centroid true
                 = Ok block)
         (seq 0 1) points_to_keep.
Proof.
  apply (@points_to_keep_one_block_per_cluster euclidean cosine_of
           sample_embeddings sample_labels [sample_center] 1%nat (9 # 100)).
  - unfold Qle. simpl. lia.
  - reflexivity.
  - simpl. lia.
  - intros i Hi. assert (i = 0%nat) as -> by lia. vm_compute. discriminate.
Defined.

Lemma kept_blocks_are_clusters_sample :
  Forall (fun block =>
            exists i, (i < 1)%nat
                      /\ Permutation
                           (cluster_rows sample_embeddings sample_labels i)
                           block)
         [sample_ranked]
  /\ forall row, In row (concat [sample_ranked]) -> In row sample_embeddings.
Proof.
  apply (@kept_blocks_are_clusters euclidean cosine_of sample_embeddings
           sample_labels [sample_center] 1%nat (9 # 100) [sample_ranked]).
  vm_compute. reflexivity.
Defined.

Lemma filtered_dataset_is_subsequence_sample :
  Subsequence ["the cat sat"; "stock prices fell"]%string sample_texts.
Proof.
  apply (@filtered_dataset_is_subsequence string sample_texts
           [[[-1; 0]; [1; 0]; [1; 0]]]
           ["the cat sat"; "stock prices fell"]%string).
  vm_compute. reflexivity.
Defined.

Lemma only_the_first_two_documents_survive_sample :
  Subsequence ["the cat sat"; "stock prices fell"]%string
    (firstn 2 sample_texts)
  /\ (length ["the cat sat"; "stock prices fell"]%string <= 2)%nat.
Proof.
  apply (@only_the_first_two_documents_survive euclidean cosine_of string
           sample_texts sample_axis_embeddings sample_labels [[1; 0]] 1%nat
           (9 # 100) ["the cat sat"; "stock prices fell"]%string).
  - repeat constructor; unfold Qle; simpl; lia.
  - vm_compute. reflexivity.
Defined.

Lemma embed_text_embeds_one_text_per_column_sample :
  exists embeddings,
    embed_text sample_load 2 sample_batch = inr embeddings
    /\ embeddings
       = map (fun p => sample_load (Nat.modulo (snd p) 2) (fst p))
           (combine
              ["the cat sat"; "stock prices fell"; "the cat sat"]%string
              (seq 0 (length sample_batch)))
    /\ length embeddings
       = Nat.min
           (length ["the cat sat"; "stock prices fell"; "the cat sat"]%string)
           (length sample_batch).
Proof.
  apply (@embed_text_embeds_one_text_per_column sample_load 2%nat sample_batch
           ["the cat sat"; "stock prices fell"; "the cat sat"]%string).
  - lia.
  - reflexivity.
Defined.

Lemma embed_text_single_column_sample :
  embed_text sample_load 2
    [("text"%string, ["the cat sat"; "stock prices fell"; "the cat sat"]%string)]
  = inr [sample_load 0 "the cat sat"%string].
Proof.
  apply (@embed_text_single_column sample_load 2%nat "the cat sat"%string
           ["stock prices fell"; "the cat sat"]%string).
  lia.
Defined.


Lemma collect_embeddings_flattens_sample :
  collect_embeddings sample_rows = concat (map snd sample_rows)
  /\ length (collect_embeddings sample_rows) = (length sample_rows * 2)%nat.
Proof.
  apply (@collect_embeddings_flattens sample_rows 2%nat).
  repeat constructor.
Defined.

Lemma column_max_entry_sample :
  exists sim column_max m,
    cosine_similarity cosine_of sample_ranked = Ok sim
    /\ Np.max_axis0 (Np.triu1 sim) = Ok column_max
    /\ spec_M cosine_of (firstn 2 sample_ranked) [3 # 5; 4 # 5] = Some m
    /\ nth_error column_max 2 = Some (Np.qmax m 0).
Proof.
  apply (@column_max_entry cosine_of sample_ranked 2%nat [3 # 5; 4 # 5]).
  - lia.
  - reflexivity.
Defined.

Lemma cluster_rows_are_member_rows_sample :
  Np.mask_index sample_embeddings (label_mask [0; 1; 0]%Z 0)
  = Ok (map (fun n => nth n sample_embeddings []) (members [0; 1; 0]%Z 0))
  /\ StronglySorted lt (members [0; 1; 0]%Z 0)
  /\ (forall n, In n (members [0; 1; 0]%Z 0)
                <-> nth_error [0; 1; 0]%Z n = Some (Z.of_nat 0)).
Proof.
  apply (@cluster_rows_are_member_rows sample_embeddings [0; 1; 0]%Z 0%nat).
  reflexivity.
Defined.

Lemma more_clusters_than_centroids_sample :
  prune euclidean cosine_of sample_embeddings sample_labels
    [sample_center] 2 (9 # 100) = Raise IndexError.
Proof.
  apply (@more_clusters_than_centroids euclidean cosine_of sample_embeddings
           sample_labels [sample_center] 2%nat (9 # 100)).
  - reflexivity.
  - simpl. lia.
  - intros i Hi. simpl in Hi. assert (i = 0%nat) as -> by lia.
    vm_compute. discriminate.
Defined.
